(** * treeSelect: a dependency-tree memoizing selector

    Shallow embedding of [treeSelect], [cachedSelector], [clearCache] and
    [insertDependentKey], together with the JavaScript built-ins they rely
    on ([Array.prototype.join] with the ToString of its elements, [typeof],
    truthiness, [Map] and [WeakMap]).

    The [Map]/[WeakMap] objects live in an explicit heap addressed by
    allocation index, so that object identity of cache levels is part of
    the model. *)

From Stdlib Require Import ZArith DecimalString.
From stdpp Require Import gmap strings list fin_maps.

Set Warnings "-register-all".
Set Default Proof Using "Type".

Local Open Scope string_scope.
Local Open Scope list_scope.
Local Open Scope nat_scope.

(** ** JavaScript values *)

(** Numbers are restricted to integral Numbers, written as the integer
    literal that denotes them, sequences to proper arrays, and plain
    objects keep the default [toString]. Reference-typed values carry their
    identity [r]. *)
Inductive value :=
  | VUndefined
  | VNull
  | VBool (b : bool)
  | VNum (n : Z)
  | VStr (s : string)
  | VObject (r : nat)
  | VArray (r : nat) (elems : list value)
  | VFunction (r : nat) (src : string).

(** The [typeof] operator. *)
Definition typeof (v : value) : string :=
  match v with
  | VUndefined => "undefined"
  | VNull => "object"
  | VBool _ => "boolean"
  | VNum _ => "number"
  | VStr _ => "string"
  | VObject _ | VArray _ _ => "object"
  | VFunction _ _ => "function"
  end.

(** ToBoolean. *)
Definition truthy (v : value) : bool :=
  match v with
  | VUndefined | VNull => false
  | VBool b => b
  | VNum n => negb (n =? 0)%Z
  | VStr s => negb (String.eqb s "")
  | VObject _ | VArray _ _ | VFunction _ _ => true
  end.

(** [v == null]: true exactly for [null] and [undefined]. *)
Definition isNullish (v : value) : bool :=
  match v with
  | VUndefined | VNull => true
  | _ => false
  end.

(** Identity of a reference-typed value; [Object(v) === v] holds exactly
    when there is one. *)
Definition refOf (v : value) : option nat :=
  match v with
  | VObject r | VArray r _ | VFunction r _ => Some r
  | _ => None
  end.

Definition isReference (v : value) : bool :=
  match refOf v with Some _ => true | None => false end.

(** ** Number to string

    [VNum n] stands for the Number that the integer literal [n] denotes,
    the double nearest to [n]. ToString prints it with the fewest digits
    that read back as the same Number, in exponent form from [10^21] on. *)

(** Decimal digits of a non-negative integer. *)
Definition digits (m : Z) : string :=
  NilZero.string_of_uint (N.to_uint (Z.to_N m)).

(** The Number nearest to the non-negative integer [m]: round to nearest
    with 53 significant bits, ties to even. *)
Definition roundDouble (m : Z) : Z :=
  let e := (Z.log2 m - 52)%Z in
  if (e <=? 0)%Z then m
  else
    let q := Z.shiftr m e in
    let r := Z.land m (Z.ones e) in
    let half := Z.shiftl 1 (e - 1) in
    let q' := if (half <? r)%Z || ((r =? half)%Z && Z.odd q)
              then (q + 1)%Z else q in
    Z.shiftl q' e.

(** The shortest decimal that reads back as the Number [x]: the multiple
    [s * 10^j] with the fewest significant digits whose nearest Number is
    [x]; of two, the one closer to [x], and the even [s] on a tie. *)
Fixpoint shortest (j : nat) (x : Z) : Z :=
  match j with
  | 0 => x
  | S j' =>
    let p := (10 ^ Z.of_nat j)%Z in
    let lo := (x / p * p)%Z in
    let hi := (lo + p)%Z in
    let okLo := (roundDouble lo =? x)%Z in
    let okHi := (roundDouble hi =? x)%Z in
    if okLo && okHi then
      if (x - lo <? hi - x)%Z then lo
      else if (hi - x <? x - lo)%Z then hi
      else if Z.even (x / p) then lo else hi
    else if okLo then lo
    else if okHi then hi
    else shortest j' x
  end.

Fixpoint stripZeros (fuel : nat) (v : Z) : Z :=
  match fuel with
  | 0 => v
  | S fuel' => if (v mod 10 =? 0)%Z then stripZeros fuel' (v / 10) else v
  end.

(** Number::toString in radix 10 of a non-negative integral Number: plain
    digits below [10^21], exponent form from there on. *)
Definition numberToString (x : Z) : string :=
  let v := shortest (String.length (digits x) - 1) x in
  if (v <? 10 ^ 21)%Z then digits v
  else
    let n := String.length (digits v) in
    match digits (stripZeros n v) with
    | String d rest =>
      String d (if String.eqb rest "" then "" else "." +:+ rest)
        +:+ "e+" +:+ digits (Z.of_nat (n - 1))
    | EmptyString => ""
    end.

(** ToString of the Number that the integer literal [n] denotes. *)
Definition numToString (n : Z) : string :=
  let x := roundDouble (Z.abs n) in
  if (1024 <=? Z.log2 x)%Z
  then (if (n <? 0)%Z then "-Infinity" else "Infinity")
  else if (n <? 0)%Z then "-" +:+ numberToString x
  else numberToString x.

(** [Array.prototype.join] with the default separator: [null] and
    [undefined] elements contribute the empty string, every other element
    its ToString. *)
Fixpoint joinElem (v : value) : string :=
  match v with
  | VUndefined | VNull => ""
  | VBool true => "true"
  | VBool false => "false"
  | VNum n => numToString n
  | VStr s => s
  | VObject _ => "[object Object]"
  | VArray _ elems => String.concat "," (map joinElem elems)
  | VFunction _ src => src
  end.

Definition join (args : list value) : string :=
  String.concat "," (map joinElem args).

(** ** Source, lines 1-9 *)

Definition defaultGetCacheKey (args : list value) : string := join args.

Definition isFunction (fn : value) : bool :=
  truthy fn && String.eqb (typeof fn) "function".

Definition isObject (o : value) : bool :=
  truthy o && String.eqb (typeof o) "object".

(** ** Map and WeakMap objects *)

(** Keys of the tree levels: the identity of a dependent, or the module's
    private [NULLISH_KEY] object (source line 111), which no caller can
    obtain. *)
Inductive objKey :=
  | NULLISH_KEY
  | ObjRef (r : nat).

#[global] Instance objKey_eq_dec : EqDecision objKey.
Proof. solve_decision. Defined.

#[global] Instance objKey_countable : Countable objKey.
Proof.
  refine (inj_countable'
    (fun k => match k with NULLISH_KEY => None | ObjRef r => Some r end)
    (fun o => match o with None => NULLISH_KEY | Some r => ObjRef r end) _).
  by intros [].
Defined.

Inductive mapKind := WeakMapK | MapK.

#[global] Instance mapKind_eq_dec : EqDecision mapKind.
Proof. solve_decision. Defined.

(** One [Map] or [WeakMap]. The program stores nested maps under object
    keys ([okeys], holding the heap address of the nested map) and Results
    under string keys ([skeys]). *)
Record mapObj := MapObj {
  kind : mapKind;
  okeys : gmap objKey nat;
  skeys : gmap string value
}.

Definition newWeakMap : mapObj := MapObj WeakMapK ∅ ∅.
Definition newMap : mapObj := MapObj MapK ∅ ∅.

(** [m.get(k)] and [m.set(k, child)] with an object key behave alike on
    both kinds. *)
Definition map_get_obj (o : mapObj) (k : objKey) : option nat := okeys o !! k.

Definition map_set_obj (o : mapObj) (k : objKey) (child : nat) : mapObj :=
  MapObj (kind o) (<[k := child]> (okeys o)) (skeys o).

(** With a string key, a [WeakMap] answers [has] with [false] and [get]
    with [undefined], and [set] throws; a [Map] is an ordinary table. *)
Definition map_has_str (o : mapObj) (k : string) : bool :=
  match kind o with
  | WeakMapK => false
  | MapK => bool_decide (is_Some (skeys o !! k))
  end.

Definition map_get_str (o : mapObj) (k : string) : value :=
  match kind o with
  | WeakMapK => VUndefined
  | MapK => default VUndefined (skeys o !! k)
  end.

Definition map_set_str (o : mapObj) (k : string) (v : value) : option mapObj :=
  match kind o with
  | WeakMapK => None
  | MapK => Some (MapObj MapK (okeys o) (<[k := v]> (skeys o)))
  end.

(** The heap of map objects; an address is an allocation index. *)
Definition alloc (h : list mapObj) (o : mapObj) : list mapObj * nat :=
  (h ++ [o], length h).

(** ** Errors *)

Inductive error :=
  | InvalidArgument      (* TypeError 'treeSelect: invalid arguments passed, ...' *)
  | CacheKeyError        (* Error 'Do not pass objects as arguments to a treeSelector' *)
  | InvalidDependentKey  (* TypeError 'key must be an object, `null`, or `undefined`' *)
  | WeakMapKeyError      (* TypeError of WeakMap.prototype.set on a non-object key *)
  | NotCallable          (* TypeError of calling a value that is not a function *)
  | DanglingAddress.     (* address outside the heap; never met from [initialStore] *)

#[global] Instance error_eq_dec : EqDecision error.
Proof. solve_decision. Defined.

(** ** Source, lines 120-134 *)

(** The key used in the level: [key || NULLISH_KEY]. Past the guard [key]
    is nullish (falsy) or reference-typed (truthy). *)
Definition weakMapKeyOf (key : value) : objKey :=
  match refOf key with
  | Some r => ObjRef r
  | None => NULLISH_KEY
  end.

Definition insertDependentKey (h : list mapObj) (map : nat) (key : value)
    (currentIndex : nat) (arr : list value) : (error + nat) * list mapObj :=
  if negb (isNullish key) && negb (isReference key) then
    (inl InvalidDependentKey, h)
  else
    let weakMapKey := weakMapKeyOf key in
    match h !! map with
    | None => (inl DanglingAddress, h)
    | Some o =>
      match map_get_obj o weakMapKey with
      | Some existingMap => (inr existingMap, h)
      | None =>
        let '(h1, newMapAddr) :=
          alloc h (if Nat.eqb currentIndex (length arr - 1)
                   then newMap else newWeakMap) in
        (inr newMapAddr, <[map := map_set_obj o weakMapKey newMapAddr]> h1)
      end
    end.

(** [arr.reduce(insertDependentKey, acc)], resumed at [currentIndex] with
    [rest] still to visit. A throw keeps the mutations made so far. *)
Fixpoint reduce_from (h : list mapObj) (acc : nat) (rest : list value)
    (currentIndex : nat) (arr : list value) : (error + nat) * list mapObj :=
  match rest with
  | [] => (inr acc, h)
  | key :: rest' =>
    match insertDependentKey h acc key currentIndex arr with
    | (inr acc', h') => reduce_from h' acc' rest' (S currentIndex) arr
    | (inl e, h') => (inl e, h')
    end
  end.

Definition reduce (h : list mapObj) (init : nat) (arr : list value)
    : (error + nat) * list mapObj :=
  reduce_from h init arr 0 arr.

(** ** Source, lines 59-106 *)

Record Options := { getCacheKey : option (list value → string) }.

(** The closure state of one cached selector: the heap and the [cache]
    variable holding the address of the root [WeakMap]. *)
Record store := Store { heap : list mapObj; cache : nat }.

(** What one call does: the value returned or the error thrown, how many
    times the computation function was invoked, and the store left. *)
Record outcome := Outcome {
  ret : error + value;
  invocations : nat;
  after : store
}.

(** The store of a newly built cached selector: [let cache = new WeakMap()]. *)
Definition initialStore : store := Store [newWeakMap] 0.

Section TreeSelect.

(** [process.env.NODE_ENV] *)
Variable NODE_ENV : option string.

(** The first two arguments of [treeSelect], and what they compute when
    they are functions. *)
Variable getDependents : value.
Variable selector : value.
Variable getDependents_body : value → list value → list value.
Variable selector_body : list value → list value → value.

Variable options : Options.

Definition development : bool :=
  negb (bool_decide (NODE_ENV = Some "production")).

(** [const { getCacheKey = defaultGetCacheKey } = options] *)
Definition activeGetCacheKey : list value → string :=
  default defaultGetCacheKey (getCacheKey options).

(** [getCacheKey === defaultGetCacheKey] *)
Definition usesDefaultKey : bool :=
  match getCacheKey options with None => true | Some _ => false end.

Definition treeSelect : error + store :=
  if development && (negb (isFunction getDependents) || negb (isFunction selector))
  then inl InvalidArgument
  else inr initialStore.

Definition cachedSelector (st : store) (state : value) (args : list value)
    : outcome :=
  if negb (String.eqb (typeof getDependents) "function") then
    Outcome (inl NotCallable) 0 st
  else
    let dependents := getDependents_body state args in
    if development && usesDefaultKey && existsb isObject args then
      Outcome (inl CacheKeyError) 0 st
    else
      match reduce (heap st) (cache st) dependents with
      | (inl e, h') => Outcome (inl e) 0 (Store h' (cache st))
      | (inr leafCache, h') =>
        let key := activeGetCacheKey args in
        match h' !! leafCache with
        | None => Outcome (inl DanglingAddress) 0 (Store h' (cache st))
        | Some leaf =>
          if map_has_str leaf key then
            Outcome (inr (map_get_str leaf key)) 0 (Store h' (cache st))
          else if negb (String.eqb (typeof selector) "function") then
            Outcome (inl NotCallable) 0 (Store h' (cache st))
          else
            let value := selector_body dependents args in
            match map_set_str leaf key value with
            | None => Outcome (inl WeakMapKeyError) 1 (Store h' (cache st))
            | Some leaf' =>
              Outcome (inr value) 1 (Store (<[leafCache := leaf']> h') (cache st))
            end
        end
      end.

(** [cachedSelector.clearCache]: allocates a new [WeakMap] and rebinds
    [cache]; returns [undefined]. *)
Definition clearCache (st : store) : (error + unit) * store :=
  let '(h', root) := alloc (heap st) newWeakMap in
  (inr tt, Store h' root).

(** Histories of uses of one cached selector. *)
Inductive op :=
  | Call (state : value) (args : list value)
  | ClearCache.

Definition step (st : store) (o : op) : store :=
  match o with
  | Call state args => after (cachedSelector st state args)
  | ClearCache => snd (clearCache st)
  end.

Definition run (st : store) (ops : list op) : store := fold_left step ops st.

End TreeSelect.

(** ** Auxiliary notions for the statements *)

(** The development-mode test of the extra arguments (source lines 79-83). *)
Definition rejectsArgs (NODE_ENV : option string) (options : Options)
    (args : list value) : bool :=
  development NODE_ENV && usesDefaultKey options && existsb isObject args.

(** A dependent passes the guard of [insertDependentKey] when it is
    nullish or reference-typed. *)
Definition validKey (key : value) : bool := isNullish key || isReference key.

(** Two dependents denote the same tree key: the same object identity, or
    both nullish. *)
Definition sameIdentity (a b : value) : Prop :=
  refOf a = refOf b ∧ isNullish a = isNullish b.

(** Calls only add to the heap: an object keeps its kind and every entry
    it has. *)
Definition obj_le (o o' : mapObj) : Prop :=
  kind o' = kind o ∧ okeys o ⊆ okeys o' ∧ skeys o ⊆ skeys o'.

Definition heap_le (h h' : list mapObj) : Prop :=
  ∀ l o, h !! l = Some o → ∃ o', h' !! l = Some o' ∧ obj_le o o'.

(** The map reached from [m] by following the object keys [p], without
    creating anything. *)
Fixpoint nodeAt (h : list mapObj) (m : nat) (p : list objKey) : option nat :=
  match p with
  | [] => Some m
  | k :: p' =>
    match h !! m with
    | Some o =>
      match okeys o !! k with
      | Some l => nodeAt h l p'
      | None => None
      end
    | None => None
    end
  end.

(** The Result stored for the key path [p] and the leaf key [k], if any. *)
Definition cachedAt (st : store) (p : list objKey) (k : string) : option value :=
  match nodeAt (heap st) (cache st) p with
  | Some l =>
    match heap st !! l with
    | Some o =>
      match kind o with
      | MapK => skeys o !! k
      | WeakMapK => None
      end
    | None => None
    end
  | None => None
  end.

(** What a walk may do to the heap: objects are appended, existing objects
    keep their kind and their string entries and only gain object keys,
    new objects hold no Result, and every new edge points to a new
    object. *)
Definition grows (h h' : list mapObj) : Prop :=
  length h ≤ length h' ∧
  (∀ l o, h !! l = Some o →
     ∃ o', h' !! l = Some o' ∧ kind o' = kind o ∧ skeys o' = skeys o ∧
           okeys o ⊆ okeys o') ∧
  (∀ l o', h' !! l = Some o' → length h ≤ l → skeys o' = ∅) ∧
  (∀ l o' k l', h' !! l = Some o' → okeys o' !! k = Some l' → l' < length h →
     ∃ o, h !! l = Some o ∧ okeys o !! k = Some l').

(** The heap is a forest: every object key leads to an allocated map whose
    key path ([pathOf], a ghost labelling) extends the path of its parent;
    a [WeakMap] holds no Result. *)
Definition heap_inv (pathOf : nat → list objKey) (h : list mapObj) : Prop :=
  (∀ l o k l', h !! l = Some o → okeys o !! k = Some l' →
     l' < length h ∧ pathOf l' = pathOf l ++ [k]) ∧
  (∀ l o, h !! l = Some o → kind o = WeakMapK → skeys o = ∅).

Definition store_inv (pathOf : nat → list objKey) (st : store) : Prop :=
  heap_inv pathOf (heap st) ∧
  pathOf (cache st) = [] ∧
  ∃ o, heap st !! cache st = Some o ∧ kind o = WeakMapK.

(** Depth discipline for dependents sequences of length [n]: maps above
    depth [n] are [WeakMap]s and have the only outgoing edges, maps at depth
    [n] are [Map]s. *)
Definition shaped (n : nat) (pathOf : nat → list objKey) (h : list mapObj) : Prop :=
  ∀ l o, h !! l = Some o →
    kind o = (if length (pathOf l) <? n then WeakMapK else MapK) ∧
    (∀ k l', okeys o !! k = Some l' → length (pathOf l) < n).

(** Two dependents that are equal, or [null] against [undefined]. *)
Definition nullishEquiv (a b : value) : Prop :=
  a = b ∨ (isNullish a = true ∧ isNullish b = true).

(** What a call returns, and how often it computes, when the cache holds
    nothing at all. *)
Definition emptyCacheOutcome (NODE_ENV : option string)
    (getDependents selector : value)
    (getDependents_body : value → list value → list value)
    (selector_body : list value → list value → value)
    (options : Options) (state : value) (args : list value)
    : (error + value) * nat :=
  if negb (String.eqb (typeof getDependents) "function") then (inl NotCallable, 0)
  else if rejectsArgs NODE_ENV options args then (inl CacheKeyError, 0)
  else
    let dependents := getDependents_body state args in
    if negb (forallb validKey dependents) then (inl InvalidDependentKey, 0)
    else if negb (String.eqb (typeof selector) "function") then (inl NotCallable, 0)
    else
      match dependents with
      | [] => (inl WeakMapKeyError, 1)
      | _ => (inr (selector_body dependents args), 1)
      end.

(** ** Sample arguments for the closed instances *)

(** [state => state], for states that are arrays of dependents. *)
Definition sampleDependents (state : value) (_ : list value) : list value :=
  match state with
  | VArray _ elems => elems
  | _ => []
  end.

(** [(dependents, ...args) => dependents.length + ':' + args.join()] *)
Definition sampleSelector (dependents args : list value) : value :=
  VStr (numToString (Z.of_nat (length dependents)) +:+ ":" +:+ join args).

Definition sampleFn : value := VFunction 100 "function () { [native code] }".

Definition defaultOptions : Options := {| getCacheKey := None |}.

(** [state => [state, null]]: two dependents on every call. *)
Definition pairDependents (state : value) (_ : list value) : list value :=
  [state; VNull].

(** ** The memo table the cache implements *)

(** What the tree stands for: a finite table from a key path and a leaf
    key to a Result. [represents st m] says that the store [st] holds
    exactly the Results of the table [m]. *)
Definition represents (st : store) (m : gmap (list objKey * string) value) : Prop :=
  ∀ p k, cachedAt st p k = m !! (p, k).

Section MemoTable.

Variable NODE_ENV : option string.
Variable getDependents selector : value.
Variable getDependents_body : value → list value → list value.
Variable selector_body : list value → list value → value.
Variable options : Options.

(** One call against the table: the guards in the order of the source,
    then lookup, and computation and insertion on a miss. *)
Definition memoCall (m : gmap (list objKey * string) value)
    (state : value) (args : list value)
    : (error + value) * nat * gmap (list objKey * string) value :=
  if negb (String.eqb (typeof getDependents) "function") then
    (inl NotCallable, 0, m)
  else
    let dependents := getDependents_body state args in
    if rejectsArgs NODE_ENV options args then (inl CacheKeyError, 0, m)
    else if negb (forallb validKey dependents) then (inl InvalidDependentKey, 0, m)
    else
      let entry := (map weakMapKeyOf dependents, activeGetCacheKey options args) in
      match m !! entry with
      | Some v => (inr v, 0, m)
      | None =>
        if negb (String.eqb (typeof selector) "function") then
          (inl NotCallable, 0, m)
        else
          let v := selector_body dependents args in
          (inr v, 1, <[entry := v]> m)
      end.

Definition memoStep (m : gmap (list objKey * string) value) (o : op)
    : gmap (list objKey * string) value :=
  match o with
  | Call state args => snd (memoCall m state args)
  | ClearCache => ∅
  end.

Definition memoRun (m : gmap (list objKey * string) value) (ops : list op)
    : gmap (list objKey * string) value :=
  fold_left memoStep ops m.

(** The table entry a call of the history asks for, when the call passes
    the guards and can compute. *)
Definition askedEntry (o : op) : option (list objKey * string) :=
  match o with
  | Call state args =>
    if negb (String.eqb (typeof getDependents) "function")
       || rejectsArgs NODE_ENV options args
       || negb (forallb validKey (getDependents_body state args))
       || negb (String.eqb (typeof selector) "function")
    then None
    else Some (map weakMapKeyOf (getDependents_body state args),
               activeGetCacheKey options args)
  | ClearCache => None
  end.

(** How often the computation function is invoked over a history. *)
Fixpoint totalInvocations (st : store) (ops : list op) : nat :=
  match ops with
  | [] => 0
  | o :: ops' =>
    match o with
    | Call state args =>
      invocations (cachedSelector NODE_ENV getDependents selector
                     getDependents_body selector_body options st state args)
    | ClearCache => 0
    end
    + totalInvocations
        (step NODE_ENV getDependents selector getDependents_body selector_body
           options st o) ops'
  end.

End MemoTable.

(** The plain decimal numeral of an integer. *)
Definition decimal (n : Z) : string :=
  if (n <? 0)%Z then "-" +:+ digits (Z.abs n) else digits (Z.abs n).
(** * Properties *)

(** ** The default key derivation on samples *)

Example join_ab : defaultGetCacheKey [VStr "a"; VStr "b"] = "a,b".
Proof. reflexivity. Qed.

Example join_mixed :
  defaultGetCacheKey [VNum 12; VNull; VArray 0 [VNum (-3); VBool true]; VObject 1]
  = "12,,-3,true,[object Object]".
Proof. reflexivity. Qed.

(** ** Number to string

    From [10^21] on a number prints in exponent form, above [2^53] with the
    digits of the nearest double, beyond the largest double as
    [Infinity]. *)
Example numToString_exponent :
  numToString (10 ^ 21 - 1) = "1e+21" ∧
  numToString (10 ^ 21) = "1e+21" ∧
  numToString (2 ^ 70) = "1.1805916207174113e+21" ∧
  numToString (2 ^ 60) = "1152921504606847000" ∧
  numToString (2 ^ 53 + 1) = "9007199254740992" ∧
  numToString (- 10 ^ 23) = "-1e+23" ∧
  numToString (2 ^ 1024) = "Infinity".
Proof. vm_compute. repeat split. Qed.

Lemma roundDouble_small m : (0 ≤ m < 2 ^ 53)%Z → roundDouble m = m.
Proof.
  intros [H0 H53]. unfold roundDouble.
  assert (Z.log2 m < 53)%Z as Hlog.
  { destruct (decide (m = 0%Z)) as [-> | Hne]; [done|].
    apply Z.log2_lt_pow2; lia. }
  destruct (Z.leb_spec (Z.log2 m - 52) 0); [done | lia].
Qed.

Lemma roundDouble_large m : (2 ^ 53 ≤ m)%Z → (2 ^ 53 ≤ roundDouble m)%Z.
Proof.
  intros H53. unfold roundDouble.
  destruct (Z.leb_spec (Z.log2 m - 52) 0) as [|He]; [done|].
  set (e := (Z.log2 m - 52)%Z) in *.
  assert (0 < m)%Z as Hm by lia.
  destruct (Z.log2_spec m Hm) as [Hlo _].
  replace (Z.log2 m) with (52 + e)%Z in Hlo by lia.
  rewrite Z.pow_add_r in Hlo by lia.
  assert (0 < 2 ^ e)%Z as Hpe by (apply Z.pow_pos_nonneg; lia).
  assert (2 ^ 52 ≤ Z.shiftr m e)%Z as Hq.
  { rewrite Z.shiftr_div_pow2 by lia. apply Z.div_le_lower_bound; lia. }
  assert (2 ≤ 2 ^ e)%Z as H2e.
  { change 2%Z with (2 ^ 1)%Z at 1. apply Z.pow_le_mono_r; lia. }
  rewrite Z.shiftl_mul_pow2 by lia.
  destruct (_ || _); nia.
Qed.

Lemma shortest_sound j x : shortest j x = x ∨ roundDouble (shortest j x) = x.
Proof.
  induction j as [|j IH]; [by left|]. cbn [shortest].
  set (p := (10 ^ Z.of_nat (S j))%Z).
  destruct (Z.eqb_spec (roundDouble (x / p * p)) x) as [Hlo|_];
    destruct (Z.eqb_spec (roundDouble (x / p * p + p)) x) as [Hhi|_]; simpl;
    repeat case_match; auto.
Qed.

Lemma numberToString_safe x : (0 ≤ x < 2 ^ 53)%Z → numberToString x = digits x.
Proof.
  intros Hx. unfold numberToString.
  assert (shortest (String.length (digits x) - 1) x = x) as ->.
  { destruct (shortest_sound (String.length (digits x) - 1) x) as [|Hr]; [done|].
    set (v := shortest _ x) in *.
    destruct (Z.lt_ge_cases v (2 ^ 53)) as [Hv|Hv].
    - destruct (Z.lt_ge_cases v 0) as [Hneg|Hpos].
      + unfold roundDouble in Hr. rewrite Z.log2_nonpos in Hr by lia.
        simpl in Hr. lia.
      + rewrite roundDouble_small in Hr by lia. done.
    - apply roundDouble_large in Hv. lia. }
  destruct (Z.ltb_spec x (10 ^ 21)); [done | lia].
Qed.

(** Below [2^53] in magnitude a number prints as its plain decimal
    numeral. *)
Lemma numToString_safe n : (Z.abs n < 2 ^ 53)%Z → numToString n = decimal n.
Proof.
  intros Hn. unfold numToString, decimal.
  rewrite roundDouble_small by lia.
  assert (Z.log2 (Z.abs n) < 53)%Z as Hlog.
  { destruct (decide (Z.abs n = 0%Z)) as [-> | Hne]; [done|].
    apply Z.log2_lt_pow2; lia. }
  destruct (Z.leb_spec 1024 (Z.log2 (Z.abs n))); [lia|].
  by rewrite numberToString_safe by lia.
Qed.

(** ** Dependent keys *)



Lemma sameIdentity_key a b : sameIdentity a b → weakMapKeyOf a = weakMapKeyOf b.
Proof. intros [Hr _]. unfold weakMapKeyOf. by rewrite Hr. Qed.

Lemma sameIdentity_valid a b : sameIdentity a b → validKey a = validKey b.
Proof. intros [Hr Hn]. unfold validKey, isReference. by rewrite Hr, Hn. Qed.

Lemma sameIdentity_keys d1 d2 :
  Forall2 sameIdentity d1 d2 → map weakMapKeyOf d1 = map weakMapKeyOf d2.
Proof.
  induction 1 as [|a b d1 d2 Hab _ IH]; [done|].
  simpl. by rewrite (sameIdentity_key a b Hab), IH.
Qed.

Lemma sameIdentity_forall_valid d1 d2 :
  Forall2 sameIdentity d1 d2 →
  Forall (λ k, validKey k = true) d1 → Forall (λ k, validKey k = true) d2.
Proof.
  induction 1 as [|a b d1 d2 Hab _ IH]; [done|].
  intros Hv. apply Forall_cons in Hv as [Ha Hd]. constructor; [|by apply IH].
  by rewrite <- (sameIdentity_valid a b Hab).
Qed.

(** ** One step of the walk *)

Lemma insertDependentKey_invalid h m key i arr :
  validKey key = false →
  insertDependentKey h m key i arr = (inl InvalidDependentKey, h).
Proof.
  unfold validKey, insertDependentKey. intros Hk.
  apply orb_false_iff in Hk as [-> ->]. done.
Qed.

Lemma insertDependentKey_valid h m key i arr :
  validKey key = true →
  insertDependentKey h m key i arr =
    match h !! m with
    | None => (inl DanglingAddress, h)
    | Some o =>
      match okeys o !! weakMapKeyOf key with
      | Some existingMap => (inr existingMap, h)
      | None =>
        (inr (length h),
         <[m := map_set_obj o (weakMapKeyOf key) (length h)]>
           (h ++ [if Nat.eqb i (length arr - 1) then newMap else newWeakMap]))
      end
    end.
Proof.
  unfold validKey, insertDependentKey, map_get_obj, alloc. intros Hk.
  rewrite <- negb_orb, Hk. simpl. done.
Qed.

Lemma insertDependentKey_ok_valid h m key i arr l h' :
  insertDependentKey h m key i arr = (inr l, h') → validKey key = true.
Proof.
  destruct (validKey key) eqn:Hk; [done|].
  by rewrite insertDependentKey_invalid.
Qed.

(** ** Heaps only grow *)



Lemma obj_le_refl o : obj_le o o.
Proof. by repeat split. Qed.

Lemma heap_le_refl h : heap_le h h.
Proof. intros l o Hl. exists o. split; [done | apply obj_le_refl]. Qed.

Lemma heap_le_trans h1 h2 h3 : heap_le h1 h2 → heap_le h2 h3 → heap_le h1 h3.
Proof.
  intros H12 H23 l o Hl.
  destruct (H12 l o Hl) as (o2 & Hl2 & Hk2 & Ho2 & Hs2).
  destruct (H23 l o2 Hl2) as (o3 & Hl3 & Hk3 & Ho3 & Hs3).
  exists o3. split; [done|]. repeat split.
  - congruence.
  - by etrans.
  - by etrans.
Qed.

Lemma heap_le_length h h' : heap_le h h' → length h ≤ length h'.
Proof.
  intros Hle. destruct (decide (length h = 0)) as [|Hn]; [lia|].
  destruct (lookup_lt_is_Some_2 h (length h - 1)) as [o Ho]; [lia|].
  destruct (Hle _ _ Ho) as (o' & Ho' & _).
  apply lookup_lt_Some in Ho'. lia.
Qed.

(** Setting a new object key and appending an object. *)
Lemma heap_le_insert_alloc h m o k new :
  h !! m = Some o → okeys o !! k = None →
  heap_le h (<[m := map_set_obj o k (length h)]> (h ++ [new])).
Proof.
  intros Hm Hk l o0 Hl.
  pose proof (lookup_lt_Some _ _ _ Hl) as Hlt.
  destruct (decide (l = m)) as [->|Hne].
  - exists (map_set_obj o k (length h)). split.
    + apply list_lookup_insert_eq. rewrite length_app. simpl. lia.
    + assert (o0 = o) as -> by congruence.
      repeat split; simpl; [|done]. by apply insert_subseteq.
  - exists o0. split; [|apply obj_le_refl].
    rewrite list_lookup_insert_ne by done. by rewrite lookup_app_l.
Qed.

Lemma insertDependentKey_le h m key i arr r h' :
  insertDependentKey h m key i arr = (r, h') → heap_le h h'.
Proof.
  destruct (validKey key) eqn:Hk.
  - rewrite insertDependentKey_valid by done.
    destruct (h !! m) as [o|] eqn:Hm.
    + destruct (okeys o !! weakMapKeyOf key) eqn:Ho; intros [= <- <-].
      * apply heap_le_refl.
      * by apply heap_le_insert_alloc.
    + intros [= <- <-]. apply heap_le_refl.
  - rewrite insertDependentKey_invalid by done. intros [= <- <-].
    apply heap_le_refl.
Qed.

Lemma reduce_from_le rest : ∀ h m i arr r h',
  reduce_from h m rest i arr = (r, h') → heap_le h h'.
Proof.
  induction rest as [|key rest IH]; intros h m i arr r h'; simpl.
  - intros [= <- <-]. apply heap_le_refl.
  - destruct (insertDependentKey h m key i arr) as [[e|m1] h1] eqn:Hstep.
    + intros [= <- <-]. by eapply insertDependentKey_le.
    + intros Hrest. eapply heap_le_trans.
      * by eapply insertDependentKey_le.
      * by eapply IH.
Qed.

(** ** Paths in the tree *)



Lemma nodeAt_app h p : ∀ m q,
  nodeAt h m (p ++ q) =
  match nodeAt h m p with Some l => nodeAt h l q | None => None end.
Proof.
  induction p as [|k p IH]; intros m q; simpl; [done|].
  destruct (h !! m) as [o|]; [|done].
  destruct (okeys o !! k) as [l|]; [|done]. apply IH.
Qed.

Lemma nodeAt_le h h' p : ∀ m l,
  heap_le h h' → nodeAt h m p = Some l → nodeAt h' m p = Some l.
Proof.
  induction p as [|k p IH]; intros m l Hle; simpl; [done|].
  destruct (h !! m) as [o|] eqn:Hm; [|done].
  destruct (okeys o !! k) as [l1|] eqn:Hk; [|done].
  destruct (Hle _ _ Hm) as (o' & -> & _ & Hsub & _).
  rewrite (lookup_weaken _ _ _ _ Hk Hsub). by apply IH.
Qed.

Lemma insertDependentKey_edge h m key i arr l h' :
  insertDependentKey h m key i arr = (inr l, h') →
  ∃ o', h' !! m = Some o' ∧ okeys o' !! weakMapKeyOf key = Some l.
Proof.
  intros Hstep. pose proof (insertDependentKey_ok_valid _ _ _ _ _ _ _ Hstep) as Hv.
  rewrite insertDependentKey_valid in Hstep by done.
  destruct (h !! m) as [o|] eqn:Hm; [|done].
  destruct (okeys o !! weakMapKeyOf key) as [l1|] eqn:Hk.
  - injection Hstep as <- <-. eauto.
  - injection Hstep as <- <-. eexists. split.
    + apply list_lookup_insert_eq. apply lookup_lt_Some in Hm.
      rewrite length_app. simpl. lia.
    + simpl. apply lookup_insert_eq.
Qed.

Lemma reduce_from_nodeAt rest : ∀ h m i arr leaf h',
  reduce_from h m rest i arr = (inr leaf, h') →
  nodeAt h' m (map weakMapKeyOf rest) = Some leaf ∧
  Forall (λ k, validKey k = true) rest.
Proof.
  induction rest as [|key rest IH]; intros h m i arr leaf h'; simpl.
  - intros [= <- <-]. by split.
  - destruct (insertDependentKey h m key i arr) as [[e|m1] h1] eqn:Hstep; [done|].
    intros Hrest. destruct (IH _ _ _ _ _ _ Hrest) as [Hnode Hvalid].
    split; [|constructor; [by eapply insertDependentKey_ok_valid | done]].
    destruct (insertDependentKey_edge _ _ _ _ _ _ _ Hstep) as (o1 & Hm1 & Hk1).
    destruct (reduce_from_le _ _ _ _ _ _ _ Hrest _ _ Hm1) as (o' & -> & _ & Hsub & _).
    by rewrite (lookup_weaken _ _ _ _ Hk1 Hsub).
Qed.

(** When the whole path is already there, the walk creates nothing. *)
Lemma reduce_from_present rest : ∀ h m i arr leaf,
  Forall (λ k, validKey k = true) rest →
  nodeAt h m (map weakMapKeyOf rest) = Some leaf →
  reduce_from h m rest i arr = (inr leaf, h).
Proof.
  induction rest as [|key rest IH]; intros h m i arr leaf Hv; simpl.
  - by intros [= ->].
  - apply Forall_cons in Hv as [Hkey Hv].
    rewrite insertDependentKey_valid by done.
    destruct (h !! m) as [o|]; [|done].
    destruct (okeys o !! weakMapKeyOf key) as [l|]; [|done].
    by apply IH.
Qed.

Lemma cachedAt_le st st' p k v :
  heap_le (heap st) (heap st') → cache st' = cache st →
  cachedAt st p k = Some v → cachedAt st' p k = Some v.
Proof.
  unfold cachedAt. intros Hle ->.
  destruct (nodeAt (heap st) (cache st) p) as [l|] eqn:Hn; [|done].
  rewrite (nodeAt_le _ _ _ _ _ Hle Hn).
  destruct (heap st !! l) as [o|] eqn:Hl; [|done].
  destruct (Hle _ _ Hl) as (o' & -> & -> & _ & Hsub).
  destruct (kind o); [done|]. intros Hk. by eapply lookup_weaken.
Qed.

Lemma heap_le_set_str h l o k v o' :
  h !! l = Some o → map_has_str o k = false → map_set_str o k v = Some o' →
  heap_le h (<[l := o']> h).
Proof.
  unfold map_has_str, map_set_str. intros Hl Hhas Hset l0 o0 Hl0.
  destruct (decide (l0 = l)) as [->|Hne].
  - exists o'. split; [apply list_lookup_insert_eq; by eapply lookup_lt_Some|].
    assert (o0 = o) as -> by congruence.
    destruct (kind o) eqn:Hkind; [done|]. injection Hset as <-.
    repeat split; simpl; [done..|].
    apply insert_subseteq. apply bool_decide_eq_false in Hhas.
    by apply eq_None_not_Some.
  - exists o0. split; [by rewrite list_lookup_insert_ne | apply obj_le_refl].
Qed.

(** ** Calls of one cached selector *)


Section Calls.

Variable NODE_ENV : option string.
Variable getDependents selector : value.
Variable getDependents_body : value → list value → list value.
Variable selector_body : list value → list value → value.
Variable options : Options.

Abbreviation call :=
  (cachedSelector NODE_ENV getDependents selector
     getDependents_body selector_body options).
Abbreviation exec :=
  (run NODE_ENV getDependents selector
     getDependents_body selector_body options).
Abbreviation key := (activeGetCacheKey options).
Abbreviation rejects := (rejectsArgs NODE_ENV options).
Abbreviation pathOfCall state args :=
  (map weakMapKeyOf (getDependents_body state args)).


Lemma call_le st state args :
  heap_le (heap st) (heap (after (call st state args))) ∧
  cache (after (call st state args)) = cache st.
Proof.
  unfold cachedSelector.
  destruct (negb _); [split; [apply heap_le_refl | done]|].
  destruct (_ && _ && existsb _ _); [split; [apply heap_le_refl | done]|].
  destruct (reduce _ _ _) as [[e|leaf] h'] eqn:Hwalk;
    pose proof (reduce_from_le _ _ _ _ _ _ _ Hwalk) as Hle; [by split|].
  destruct (h' !! leaf) as [o|] eqn:Hleaf; [|by split].
  destruct (map_has_str o _) eqn:Hhas; [by split|].
  destruct (negb _); [by split|].
  destruct (map_set_str o _ _) as [o'|] eqn:Hset; [|by split].
  split; [|done]. simpl. eapply heap_le_trans; [done|].
  by eapply heap_le_set_str.
Qed.

(** A stored Result is returned as it is, and nothing else happens. *)
Lemma call_hit st state args v :
  typeof getDependents = "function" →
  rejects args = false →
  Forall (λ k, validKey k = true) (getDependents_body state args) →
  cachedAt st (pathOfCall state args) (key args) = Some v →
  call st state args = Outcome (inr v) 0 st.
Proof.
  unfold cachedAt, cachedSelector, rejectsArgs, reduce.
  intros -> -> Hvalid Hcached. simpl.
  destruct (nodeAt _ _ _) as [leaf|] eqn:Hnode; [|done].
  rewrite (reduce_from_present _ _ _ _ _ _ Hvalid Hnode).
  destruct (heap st !! leaf) as [o|]; [|done].
  unfold map_has_str, map_get_str.
  destruct (kind o); [done|]. rewrite Hcached. simpl. by destruct st.
Qed.

(** What a successful call leaves behind. *)
Lemma call_ok st state args v :
  ret (call st state args) = inr v →
  typeof getDependents = "function" ∧
  rejects args = false ∧
  Forall (λ k, validKey k = true) (getDependents_body state args) ∧
  cachedAt (after (call st state args)) (pathOfCall state args) (key args)
    = Some v ∧
  invocations (call st state args) ≤ 1.
Proof.
  unfold cachedSelector, rejectsArgs.
  destruct (String.eqb (typeof getDependents) "function") eqn:Hfn; [|done].
  apply String.eqb_eq in Hfn. simpl.
  destruct (_ && _ && existsb _ _); [done|].
  destruct (reduce _ _ _) as [[e|leaf] h'] eqn:Hwalk; [done|].
  destruct (reduce_from_nodeAt _ _ _ _ _ _ _ Hwalk) as [Hnode Hvalid].
  destruct (h' !! leaf) as [o|] eqn:Hleaf; [|done].
  unfold cachedAt.
  destruct (map_has_str o _) eqn:Hhas.
  - simpl. intros [= <-]. repeat split; [done..| |lia].
    rewrite Hnode, Hleaf. unfold map_has_str, map_get_str in *.
    destruct (kind o); [done|].
    apply bool_decide_eq_true in Hhas as [w ->]. done.
  - destruct (negb _); [done|].
    destruct (map_set_str o _ _) as [o'|] eqn:Hset; [|done].
    simpl. intros [= <-]. repeat split; [done..| |lia].
    pose proof (heap_le_set_str _ _ _ _ _ _ Hleaf Hhas Hset) as Hle.
    rewrite (nodeAt_le _ _ _ _ _ Hle Hnode).
    rewrite list_lookup_insert_eq by (by eapply lookup_lt_Some).
    unfold map_set_str in Hset. destruct (kind o); [done|].
    injection Hset as <-. simpl. apply lookup_insert_eq.
Qed.

(** Calls never remove anything and never rebind [cache]. *)
Lemma exec_calls_le ops : ∀ st,
  Forall (λ o, o ≠ ClearCache) ops →
  heap_le (heap st) (heap (exec st ops)) ∧ cache (exec st ops) = cache st.
Proof.
  induction ops as [|o ops IH]; intros st Hops; simpl.
  - split; [apply heap_le_refl | done].
  - apply Forall_cons in Hops as [Ho Hops].
    destruct o as [state args|]; [|done]. simpl.
    destruct (IH (after (call st state args)) Hops) as [Hle Hc].
    destruct (call_le st state args) as [Hle1 Hc1].
    split; [by eapply heap_le_trans | congruence].
Qed.

(** The memoization argument shared by the claims on reuse: once a call
    has returned [v], a later call that walks the same key path and
    derives the same leaf key finds [v] and computes nothing. *)
Lemma memo_reuse st state1 args1 v ops state2 args2 :
  ret (call st state1 args1) = inr v →
  Forall (λ o, o ≠ ClearCache) ops →
  Forall2 sameIdentity (getDependents_body state1 args1)
                       (getDependents_body state2 args2) →
  key args1 = key args2 →
  rejects args2 = false →
  let st1 := exec (after (call st state1 args1)) ops in
  call st1 state2 args2 = Outcome (inr v) 0 st1 ∧
  invocations (call st state1 args1) ≤ 1.
Proof.
  intros Hok Hops Hsame Hkey Hargs st1.
  destruct (call_ok _ _ _ _ Hok) as (Hfn & _ & Hvalid & Hcached & Hinv).
  split; [|done]. apply call_hit; [done..| |].
  - by eapply sameIdentity_forall_valid.
  - destruct (exec_calls_le ops (after (call st state1 args1)) Hops) as [Hle Hc].
    rewrite <- (sameIdentity_keys _ _ Hsame), <- Hkey.
    by eapply cachedAt_le.
Qed.

End Calls.

(** ** The heap stays a forest *)

Lemma grows_refl h : grows h h.
Proof.
  repeat split; [done| |intros l o' Hl Hge|by eauto].
  - intros l o Hl. by exists o.
  - apply lookup_lt_Some in Hl. lia.
Qed.

Lemma grows_trans h1 h2 h3 : grows h1 h2 → grows h2 h3 → grows h1 h3.
Proof.
  intros (Hlen12 & Hold12 & Hnew12 & Hback12) (Hlen23 & Hold23 & Hnew23 & Hback23).
  repeat split.
  - lia.
  - intros l o Hl. destruct (Hold12 _ _ Hl) as (o2 & Hl2 & Hk2 & Hs2 & Ho2).
    destruct (Hold23 _ _ Hl2) as (o3 & Hl3 & Hk3 & Hs3 & Ho3).
    exists o3. repeat split; [done|congruence|congruence|by etrans].
  - intros l o3 Hl3 Hge. destruct (decide (l < length h2)) as [Hlt|Hnlt].
    + destruct (lookup_lt_is_Some_2 h2 l Hlt) as [o2 Hl2].
      destruct (Hold23 _ _ Hl2) as (o3' & Hl3' & _ & Hs3 & _).
      assert (o3' = o3) as -> by congruence.
      rewrite Hs3. by eapply Hnew12.
    + eapply Hnew23; [done | lia].
  - intros l o3 k l' Hl3 Hk Hlt.
    destruct (Hback23 _ _ _ _ Hl3 Hk) as (o2 & Hl2 & Hk2); [lia|].
    by eapply Hback12.
Qed.

Lemma grows_heap_le h h' : grows h h' → heap_le h h'.
Proof.
  intros (_ & Hold & _) l o Hl. destruct (Hold _ _ Hl) as (o' & Hl' & Hk & Hs & Ho).
  exists o'. split; [done|]. repeat split; [done..|by rewrite Hs].
Qed.

Lemma lookup_insert_alloc (h : list mapObj) m o2 new l0 o0 :
  m < length h → <[m := o2]> (h ++ [new]) !! l0 = Some o0 →
  (l0 = m ∧ o0 = o2) ∨ (l0 = length h ∧ o0 = new) ∨
  (l0 ≠ m ∧ l0 < length h ∧ h !! l0 = Some o0).
Proof.
  intros Hm Hl. destruct (decide (l0 = m)) as [->|Hne].
  - rewrite list_lookup_insert_eq in Hl by (rewrite length_app; simpl; lia).
    left. split; congruence.
  - rewrite list_lookup_insert_ne in Hl by done.
    destruct (decide (l0 < length h)) as [Hlt|Hnlt].
    + rewrite lookup_app_l in Hl by done. by right; right.
    + right; left. pose proof (lookup_lt_Some _ _ _ Hl) as Hlt.
      rewrite length_app in Hlt. simpl in Hlt.
      assert (l0 = length h) as -> by lia.
      rewrite lookup_app_r, Nat.sub_diag in Hl by lia. simpl in Hl.
      split; congruence.
Qed.

Lemma grows_insert_alloc h m o k new :
  h !! m = Some o → okeys o !! k = None → skeys new = ∅ → okeys new = ∅ →
  grows h (<[m := map_set_obj o k (length h)]> (h ++ [new])).
Proof.
  intros Hm Hk Hsnew Honew. pose proof (lookup_lt_Some _ _ _ Hm) as Hmlt.
  repeat split.
  - rewrite length_insert, length_app. simpl. lia.
  - intros l o0 Hl. pose proof (lookup_lt_Some _ _ _ Hl) as Hlt.
    destruct (decide (l = m)) as [->|Hne].
    + exists (map_set_obj o k (length h)). assert (o0 = o) as -> by congruence.
      repeat split; [|by apply insert_subseteq].
      apply list_lookup_insert_eq. rewrite length_app. simpl. lia.
    + exists o0. repeat split; [|done].
      rewrite list_lookup_insert_ne by done. by rewrite lookup_app_l.
  - intros l o' Hl Hge.
    destruct (lookup_insert_alloc _ _ _ _ _ _ Hmlt Hl)
      as [[-> _]|[[_ ->]|(_ & Hlt & _)]]; [lia|done|lia].
  - intros l o' k0 l' Hl Hk0 Hlt.
    destruct (lookup_insert_alloc _ _ _ _ _ _ Hmlt Hl)
      as [[-> ->]|[[_ ->]|(_ & _ & Hold)]].
    + simpl in Hk0. exists o. split; [done|].
      destruct (decide (k0 = k)) as [->|Hne].
      * rewrite lookup_insert_eq in Hk0. injection Hk0 as <-. lia.
      * by rewrite lookup_insert_ne in Hk0.
    + by rewrite Honew in Hk0.
    + by exists o'.
Qed.

Lemma heap_inv_insert_alloc pathOf h m o k new :
  heap_inv pathOf h → h !! m = Some o → okeys o !! k = None →
  skeys new = ∅ → okeys new = ∅ →
  heap_inv (λ l, if decide (l = length h) then pathOf m ++ [k] else pathOf l)
           (<[m := map_set_obj o k (length h)]> (h ++ [new])).
Proof.
  intros [Hedges Hweak] Hm Hk Hsnew Honew.
  pose proof (lookup_lt_Some _ _ _ Hm) as Hmlt.
  assert (length (<[m := map_set_obj o k (length h)]> (h ++ [new])) = S (length h))
    as Hlen by (rewrite length_insert, length_app; simpl; lia).
  split.
  - intros l o' k0 l' Hl Hk0. rewrite Hlen.
    destruct (lookup_insert_alloc _ _ _ _ _ _ Hmlt Hl)
      as [[-> ->]|[[_ ->]|(Hne & Hlt & Hold)]].
    + simpl in Hk0. rewrite (decide_False (P := m = length h)) by lia.
      destruct (decide (k0 = k)) as [->|Hkne].
      * rewrite lookup_insert_eq in Hk0. injection Hk0 as <-.
        rewrite decide_True by done. split; [lia | done].
      * rewrite lookup_insert_ne in Hk0 by done.
        destruct (Hedges _ _ _ _ Hm Hk0) as [Hlt Hpath].
        rewrite decide_False by lia. split; [lia | done].
    + by rewrite Honew in Hk0.
    + destruct (Hedges _ _ _ _ Hold Hk0) as [Hlt' Hpath].
      rewrite !decide_False by lia. split; [lia | done].
  - intros l o' Hl Hkind.
    destruct (lookup_insert_alloc _ _ _ _ _ _ Hmlt Hl)
      as [[-> ->]|[[_ ->]|(_ & _ & Hold)]]; [|done|by eapply Hweak].
    simpl in *. by eapply Hweak.
Qed.

Lemma shaped_insert_alloc pathOf h m o k i n :
  shaped n pathOf h → h !! m = Some o → length (pathOf m) = i → i < n →
  shaped n (λ l, if decide (l = length h) then pathOf m ++ [k] else pathOf l)
    (<[m := map_set_obj o k (length h)]>
       (h ++ [if Nat.eqb i (n - 1) then newMap else newWeakMap])).
Proof.
  intros Hshaped Hm Hdepth Hi l o' Hl.
  pose proof (lookup_lt_Some _ _ _ Hm) as Hmlt.
  destruct (lookup_insert_alloc _ _ _ _ _ _ Hmlt Hl)
    as [[-> ->]|[[-> ->]|(Hne & Hlt & Hold)]].
  - rewrite decide_False by lia. destruct (Hshaped _ _ Hm) as [Hkind _].
    split; [done|]. intros _ _ _. lia.
  - rewrite decide_True by done. rewrite length_app. simpl.
    split.
    + destruct (Nat.eqb_spec i (n - 1)) as [Heq|Hneq]; simpl.
      * rewrite (proj2 (Nat.ltb_ge _ _)) by lia. done.
      * rewrite (proj2 (Nat.ltb_lt _ _)) by lia. done.
    + intros k0 l'. by destruct (Nat.eqb i (n - 1)).
  - rewrite decide_False by lia. by apply Hshaped.
Qed.

(** One step preserves the forest and tells where it went. *)
Lemma insertDependentKey_inv h m key i arr pathOf :
  heap_inv pathOf h → m < length h →
  ∃ r h' pathOf',
    insertDependentKey h m key i arr = (r, h') ∧
    heap_inv pathOf' h' ∧
    (∀ l, l < length h → pathOf' l = pathOf l) ∧
    grows h h' ∧
    (length (pathOf m) = i → i < length arr →
     shaped (length arr) pathOf h → shaped (length arr) pathOf' h') ∧
    match r with
    | inr l => validKey key = true ∧ l < length h' ∧
               pathOf' l = pathOf m ++ [weakMapKeyOf key]
    | inl e => validKey key = false ∧ e = InvalidDependentKey ∧ h' = h
    end.
Proof.
  intros Hinv Hmlt. destruct (validKey key) eqn:Hvalid.
  - rewrite insertDependentKey_valid by done.
    destruct (lookup_lt_is_Some_2 h m Hmlt) as [o Hm]. rewrite Hm.
    destruct (okeys o !! weakMapKeyOf key) as [l|] eqn:Hk.
    + exists (inr l), h, pathOf. destruct Hinv as [Hedges Hweak].
      destruct (Hedges _ _ _ _ Hm Hk) as [Hlt Hpath].
      split; [done|]. split; [by split|]. split; [done|].
      split; [apply grows_refl|]. by split.
    + set (new := if Nat.eqb i (length arr - 1) then newMap else newWeakMap).
      assert (skeys new = ∅ ∧ okeys new = ∅) as [Hsnew Honew]
        by (unfold new; by destruct (Nat.eqb _ _)).
      eexists (inr (length h)), _, _. split; [done|].
      split; [by apply heap_inv_insert_alloc|].
      split; [intros l Hl; rewrite decide_False by lia; done|].
      split; [by apply grows_insert_alloc|].
      split; [intros Hdepth Hi Hshaped; by apply shaped_insert_alloc|].
      split; [done|]. rewrite length_insert, length_app. simpl.
      split; [lia|]. by rewrite decide_True.
  - rewrite insertDependentKey_invalid by done.
    exists (inl InvalidDependentKey), h, pathOf.
    split; [done|]. split; [done|]. split; [done|].
    split; [apply grows_refl|]. by split.
Qed.

(** The whole walk preserves the forest; it either reaches the map
    labelled with the key path of the dependents, or stops at the first
    dependent that is a primitive other than [null] and [undefined]. *)
Lemma reduce_from_inv rest : ∀ h m i arr pathOf,
  heap_inv pathOf h → m < length h →
  ∃ r h' pathOf',
    reduce_from h m rest i arr = (r, h') ∧
    heap_inv pathOf' h' ∧
    (∀ l, l < length h → pathOf' l = pathOf l) ∧
    grows h h' ∧
    (length (pathOf m) = i → i + length rest ≤ length arr →
     shaped (length arr) pathOf h → shaped (length arr) pathOf' h') ∧
    match r with
    | inr leaf => Forall (λ k, validKey k = true) rest ∧ leaf < length h' ∧
                  pathOf' leaf = pathOf m ++ map weakMapKeyOf rest
    | inl e => e = InvalidDependentKey ∧ Exists (λ k, validKey k = false) rest
    end.
Proof.
  induction rest as [|key rest IH]; intros h m i arr pathOf Hinv Hmlt; simpl.
  - exists (inr m), h, pathOf.
    split; [done|]. split; [done|]. split; [done|].
    split; [apply grows_refl|]. split; [done|].
    split; [done|]. split; [done|]. by rewrite app_nil_r.
  - destruct (insertDependentKey_inv h m key i arr pathOf Hinv Hmlt)
      as (r1 & h1 & pathOf1 & -> & Hinv1 & Hagree1 & Hgrows1 & Hshaped1 & Hr1).
    destruct r1 as [e|m1].
    + destruct Hr1 as (Hvalid & -> & ->).
      exists (inl InvalidDependentKey), h, pathOf1.
      split; [done|]. split; [done|]. split; [done|]. split; [done|].
      split; [intros Hdepth Hlen Hshaped; apply Hshaped1; [done|lia|done]|].
      split; [done|]. by constructor.
    + destruct Hr1 as (Hvalid & Hm1 & Hpath1).
      destruct (IH h1 m1 (S i) arr pathOf1 Hinv1 Hm1)
        as (r & h' & pathOf' & -> & Hinv' & Hagree' & Hgrows' & Hshaped' & Hr).
      exists r, h', pathOf'. split; [done|]. split; [done|].
      destruct Hgrows1 as (Hlen1 & Hrest1).
      split; [intros l Hl; rewrite Hagree' by lia; by apply Hagree1|].
      split; [eapply grows_trans; [by split|done]|].
      split.
      * intros Hdepth Hlen Hshaped. apply Hshaped'.
        -- rewrite Hpath1, length_app. simpl. lia.
        -- lia.
        -- apply Hshaped1; [done|lia|done].
      * destruct r as [e|leaf].
        -- destruct Hr as [-> Hex]. split; [done|]. by apply Exists_cons_tl.
        -- destruct Hr as (Hv & Hleaf & Hpath). split; [by constructor|].
           split; [done|]. rewrite Hpath, Hpath1, <- app_assoc. done.
Qed.

(** Under the forest invariant a key path names at most one map. *)
Lemma nodeAt_pathOf pathOf h p : ∀ m l,
  heap_inv pathOf h → nodeAt h m p = Some l → pathOf l = pathOf m ++ p.
Proof.
  induction p as [|k p IH]; intros m l Hinv; simpl.
  - intros [= ->]. by rewrite app_nil_r.
  - destruct (h !! m) as [o|] eqn:Hm; [|done].
    destruct (okeys o !! k) as [l1|] eqn:Hk; [|done].
    intros Hnode. rewrite (IH _ _ Hinv Hnode).
    destruct Hinv as [Hedges _]. destruct (Hedges _ _ _ _ Hm Hk) as [_ ->].
    by rewrite <- app_assoc.
Qed.

(** A path of the grown heap that ends in an old map is an old path. *)
Lemma nodeAt_old h h' p : ∀ m l,
  grows h h' → nodeAt h' m p = Some l → l < length h → nodeAt h m p = Some l.
Proof.
  induction p as [|k p IH] using rev_ind; intros m l Hgrows; simpl; [done|].
  rewrite !nodeAt_app.
  destruct (nodeAt h' m p) as [l1|] eqn:Hn; [|done]. simpl.
  destruct (h' !! l1) as [o'|] eqn:Hl1; [|done].
  destruct (okeys o' !! k) as [l2|] eqn:Hk; [|done].
  intros [= ->] Hlt. destruct Hgrows as (Hlen & Hold & Hnew & Hback).
  destruct (Hback _ _ _ _ Hl1 Hk Hlt) as (o & Hl & Hko).
  rewrite (IH m l1); [|done|done|by eapply lookup_lt_Some].
  simpl. by rewrite Hl, Hko.
Qed.

(** A walk changes no stored Result, whatever the path. *)
Lemma grows_cachedAt h h' root p k :
  grows h h' → cachedAt (Store h' root) p k = cachedAt (Store h root) p k.
Proof.
  intros Hgrows. unfold cachedAt. simpl.
  pose proof Hgrows as (Hlen & Hold & Hnew & Hback).
  assert (∀ l, length h ≤ l →
    match h' !! l with
    | Some o' => match kind o' with MapK => skeys o' !! k | WeakMapK => None end
    | None => None
    end = None) as Hfresh.
  { intros l Hge. destruct (h' !! l) as [o'|] eqn:Hl'; [|done].
    rewrite (Hnew _ _ Hl' Hge). by destruct (kind o'). }
  destruct (nodeAt h root p) as [l|] eqn:Hn.
  - rewrite (nodeAt_le _ _ _ _ _ (grows_heap_le _ _ Hgrows) Hn).
    destruct (h !! l) as [o|] eqn:Hl.
    + destruct (Hold _ _ Hl) as (o' & -> & -> & -> & _). done.
    + apply Hfresh. by apply lookup_ge_None.
  - destruct (nodeAt h' root p) as [l|] eqn:Hn'; [|done].
    destruct (decide (l < length h)) as [Hlt|Hge].
    + by rewrite (nodeAt_old _ _ _ _ _ Hgrows Hn' Hlt) in Hn.
    + apply Hfresh. lia.
Qed.

Lemma map_set_str_Some o k v o' :
  map_set_str o k v = Some o' →
  kind o = MapK ∧ o' = MapObj MapK (okeys o) (<[k := v]> (skeys o)).
Proof. unfold map_set_str. destruct (kind o); [done|]. by intros [= <-]. Qed.

(** Writing a Result changes no edge. *)
Lemma nodeAt_set_str h l o o' p : ∀ m,
  h !! l = Some o → okeys o' = okeys o →
  nodeAt (<[l := o']> h) m p = nodeAt h m p.
Proof.
  intros m Hl Hokeys. revert m.
  induction p as [|k p IH]; intros m; simpl; [done|].
  destruct (decide (m = l)) as [->|Hne].
  - rewrite list_lookup_insert_eq by (by eapply lookup_lt_Some).
    rewrite Hl, Hokeys. destruct (okeys o !! k); [apply IH | done].
  - rewrite list_lookup_insert_ne by done.
    destruct (h !! m) as [o0|]; [|done].
    destruct (okeys o0 !! k); [apply IH | done].
Qed.

Lemma heap_inv_set_str pathOf h l o k v o' :
  heap_inv pathOf h → h !! l = Some o → map_set_str o k v = Some o' →
  heap_inv pathOf (<[l := o']> h).
Proof.
  intros [Hedges Hweak] Hl [Hkind ->]%map_set_str_Some. split.
  - intros l0 o0 k0 l' [(<- & <- & _)|[_ Hold]]%list_lookup_insert_Some Hk0;
      rewrite length_insert; by eapply Hedges.
  - intros l0 o0 [(<- & <- & _)|[_ Hold]]%list_lookup_insert_Some; [done|].
    by eapply Hweak.
Qed.

Lemma shaped_set_str n pathOf h l o k v o' :
  shaped n pathOf h → h !! l = Some o → map_set_str o k v = Some o' →
  shaped n pathOf (<[l := o']> h).
Proof.
  intros Hshaped Hl [Hkind ->]%map_set_str_Some l0 o0
    [(<- & <- & _)|[_ Hold]]%list_lookup_insert_Some; [|by apply Hshaped].
  destruct (Hshaped _ _ Hl) as [Hk Hout]. simpl. split; [congruence | done].
Qed.

(** Writing a Result at the map of path [pA] is invisible at every other
    path. *)
Lemma set_str_cachedAt pathOf h root l o k v o' p k' :
  heap_inv pathOf h → h !! l = Some o → map_set_str o k v = Some o' →
  pathOf l ≠ pathOf root ++ p →
  cachedAt (Store (<[l := o']> h) root) p k' = cachedAt (Store h root) p k'.
Proof.
  intros Hinv Hl Hset Hpath. unfold cachedAt. simpl.
  pose proof (map_set_str_Some _ _ _ _ Hset) as [_ ->].
  rewrite (nodeAt_set_str _ _ _ _ _ _ Hl) by done.
  destruct (nodeAt h root p) as [l0|] eqn:Hn; [|done].
  rewrite list_lookup_insert_ne; [done|].
  intros ->. by rewrite (nodeAt_pathOf _ _ _ _ _ Hinv Hn) in Hpath.
Qed.

(** ** Invariants of every reachable store *)

Section Invariants.

Variable NODE_ENV : option string.
Variable getDependents selector : value.
Variable getDependents_body : value → list value → list value.
Variable selector_body : list value → list value → value.
Variable options : Options.

Abbreviation call :=
  (cachedSelector NODE_ENV getDependents selector
     getDependents_body selector_body options).
Abbreviation exec :=
  (run NODE_ENV getDependents selector
     getDependents_body selector_body options).

Lemma initialStore_inv : store_inv (λ _, []) initialStore.
Proof.
  split; [split|split; [done|by exists newWeakMap]].
  - intros l o k l' Hl Hk. apply list_lookup_singleton_Some in Hl as [_ <-]. done.
  - intros l o Hl _. apply list_lookup_singleton_Some in Hl as [_ <-]. done.
Qed.

Lemma initialStore_shaped n : 1 ≤ n → shaped n (λ _, []) (heap initialStore).
Proof.
  intros Hn l o Hl. apply list_lookup_singleton_Some in Hl as [_ <-]. simpl.
  split; [|done]. by rewrite (proj2 (Nat.ltb_lt 0 n)) by lia.
Qed.

Lemma call_inv pathOf st state args n :
  store_inv pathOf st →
  ∃ pathOf', store_inv pathOf' (after (call st state args)) ∧
    (∀ l, l < length (heap st) → pathOf' l = pathOf l) ∧
    length (heap st) ≤ length (heap (after (call st state args))) ∧
    (length (getDependents_body state args) = n →
     shaped n pathOf (heap st) →
     shaped n pathOf' (heap (after (call st state args)))).
Proof.
  intros (Hinv & Hroot & oroot & Horoot & Hkroot). unfold cachedSelector.
  assert (store_inv pathOf st) as Hst by (split; [done|]; split; [done|]; eauto).
  destruct (negb _); [by exists pathOf|].
  destruct (_ && _ && existsb _ _); [by exists pathOf|].
  destruct (reduce_from_inv (getDependents_body state args) (heap st) (cache st)
              0 (getDependents_body state args) pathOf Hinv
              (lookup_lt_Some _ _ _ Horoot))
    as (r & h' & pathOf' & Hwalk & Hinv' & Hagree & Hgrows & Hshaped & Hr).
  unfold reduce. rewrite Hwalk.
  pose proof Hgrows as (Hlen & Hold & _).
  destruct (Hold _ _ Horoot) as (oroot' & Horoot' & Hkroot' & _).
  assert (pathOf' (cache st) = []) as Hroot'
    by (rewrite Hagree; [done | by eapply lookup_lt_Some]).
  assert (length (getDependents_body state args) = n →
          shaped n pathOf (heap st) → shaped n pathOf' h') as Hsh.
  { intros <- Hs. apply Hshaped; [by rewrite Hroot | simpl; lia | done]. }
  assert (∃ pathOf', store_inv pathOf' (Store h' (cache st)) ∧
    (∀ l, l < length (heap st) → pathOf' l = pathOf l) ∧
    length (heap st) ≤ length h' ∧
    (length (getDependents_body state args) = n →
     shaped n pathOf (heap st) → shaped n pathOf' h')) as Hdone.
  { exists pathOf'. split; [|done]. split; [done|]. split; [done|].
    exists oroot'. split; [done | congruence]. }
  destruct r as [e|leaf]; [done|].
  destruct (h' !! leaf) as [o|] eqn:Hleaf; [|done].
  destruct (map_has_str o _); [done|].
  destruct (negb _); [done|].
  destruct (map_set_str o _ _) as [o'|] eqn:Hset; [|done].
  exists pathOf'. simpl. split; [|split; [done|split]].
  - split; [by eapply heap_inv_set_str|]. split; [done|].
    exists oroot'. split; [|congruence]. simpl.
    rewrite list_lookup_insert_ne; [done|]. intros ->.
    apply map_set_str_Some in Hset as [Hk _]. congruence.
  - by rewrite length_insert.
  - intros Hlen' Hs. eapply shaped_set_str; [by apply Hsh | done..].
Qed.

Lemma clearCache_inv pathOf st n :
  store_inv pathOf st →
  ∃ pathOf', store_inv pathOf' (snd (clearCache st)) ∧
    (∀ l, l < length (heap st) → pathOf' l = pathOf l) ∧
    length (heap st) ≤ length (heap (snd (clearCache st))) ∧
    (1 ≤ n → shaped n pathOf (heap st) →
     shaped n pathOf' (heap (snd (clearCache st)))).
Proof.
  intros ([Hedges Hweak] & Hroot & _). unfold clearCache, alloc. simpl.
  exists (λ l, if decide (l = length (heap st)) then [] else pathOf l).
  split; [split; [split|split]|split; [|split]].
  - intros l o k l' [[Hlt Hl]|[-> <-]]%lookup_snoc_Some Hk; [|done].
    destruct (Hedges _ _ _ _ Hl Hk) as [Hlt' Hpath].
    simpl. rewrite length_app, !decide_False by lia. simpl. split; [lia | done].
  - intros l o [[Hlt Hl]|[-> <-]]%lookup_snoc_Some; [by eapply Hweak | done].
  - by rewrite decide_True.
  - exists newWeakMap. split; [|done].
    apply lookup_snoc_Some. by right.
  - intros l Hl. by rewrite decide_False by lia.
  - rewrite length_app. lia.
  - intros Hn Hs l o [[Hlt Hl]|[-> <-]]%lookup_snoc_Some.
    + rewrite decide_False by lia. by apply Hs.
    + rewrite decide_True by done. simpl.
      split; [|done]. by rewrite (proj2 (Nat.ltb_lt 0 n)) by lia.
Qed.

Lemma exec_inv n ops : ∀ st pathOf,
  store_inv pathOf st →
  ∃ pathOf', store_inv pathOf' (exec st ops) ∧
    (∀ l, l < length (heap st) → pathOf' l = pathOf l) ∧
    length (heap st) ≤ length (heap (exec st ops)) ∧
    ((∀ state args, length (getDependents_body state args) = n) → 1 ≤ n →
     shaped n pathOf (heap st) → shaped n pathOf' (heap (exec st ops))).
Proof.
  induction ops as [|o ops IH]; intros st pathOf Hinv; simpl.
  - by exists pathOf.
  - assert (∃ pathOf1, store_inv pathOf1 (step NODE_ENV getDependents selector
        getDependents_body selector_body options st o) ∧
      (∀ l, l < length (heap st) → pathOf1 l = pathOf l) ∧
      length (heap st) ≤ length (heap (step NODE_ENV getDependents selector
        getDependents_body selector_body options st o)) ∧
      ((∀ state args, length (getDependents_body state args) = n) → 1 ≤ n →
       shaped n pathOf (heap st) →
       shaped n pathOf1 (heap (step NODE_ENV getDependents selector
         getDependents_body selector_body options st o))))
      as (pathOf1 & Hinv1 & Hagree1 & Hlen1 & Hs1).
    { destruct o as [state args|]; simpl.
      - destruct (call_inv pathOf st state args n Hinv) as (q & ? & ? & ? & Hq).
        exists q. repeat (split; [done|]). intros Hlen _. by apply Hq.
      - destruct (clearCache_inv pathOf st n Hinv) as (q & ? & ? & ? & Hq).
        exists q. repeat (split; [done|]). intros _. by apply Hq. }
    destruct (IH _ _ Hinv1) as (pathOf' & Hinv' & Hagree' & Hlen' & Hs').
    exists pathOf'. split; [done|].
    split; [intros l Hl; rewrite Hagree' by lia; by apply Hagree1|].
    split; [lia|]. intros Hlen Hn Hs. apply Hs'; [done..|]. by apply Hs1.
Qed.

(** Every store reached from a newly built selector is a forest rooted at
    a [WeakMap]; with dependents of constant length [n] it also respects the
    depth discipline. *)
Lemma reachable_inv n ops :
  ∃ pathOf, store_inv pathOf (exec initialStore ops) ∧
    ((∀ state args, length (getDependents_body state args) = n) → 1 ≤ n →
     shaped n pathOf (heap (exec initialStore ops))).
Proof.
  destruct (exec_inv n ops initialStore _ initialStore_inv)
    as (pathOf & Hinv & _ & _ & Hs).
  exists pathOf. split; [done|]. intros Hlen Hn.
  apply Hs; [done..|]. by apply initialStore_shaped.
Qed.

End Invariants.

(** ** Further facts about the walk *)

Lemma reduce_from_error_kind rest : ∀ h m i arr e h',
  reduce_from h m rest i arr = (inl e, h') →
  e = InvalidDependentKey ∨ e = DanglingAddress.
Proof.
  induction rest as [|key rest IH]; intros h m i arr e h'; simpl; [done|].
  destruct (insertDependentKey h m key i arr) as [[e1|m1] h1] eqn:Hstep.
  - intros [= <- <-]. revert Hstep. unfold insertDependentKey, map_get_obj, alloc.
    destruct (_ && _); [intros [= <- _]; by left|].
    destruct (h !! m) as [o|]; [|intros [= <- _]; by right].
    by destruct (okeys o !! _).
  - apply IH.
Qed.

Lemma reduce_from_app pre : ∀ post h m i arr,
  reduce_from h m (pre ++ post) i arr =
  match reduce_from h m pre i arr with
  | (inr l, h1) => reduce_from h1 l post (i + length pre) arr
  | (inl e, h1) => (inl e, h1)
  end.
Proof.
  induction pre as [|key pre IH]; intros post h m i arr; simpl.
  - by rewrite Nat.add_0_r.
  - destruct (insertDependentKey h m key i arr) as [[e|m1] h1]; [done|].
    rewrite IH. by rewrite Nat.add_succ_r.
Qed.

Lemma first_invalid deps : ∀ i v,
  deps !! i = Some v → validKey v = false →
  ∃ pre bad post, deps = pre ++ bad :: post ∧
    Forall (λ k, validKey k = true) pre ∧ validKey bad = false ∧ length pre ≤ i.
Proof.
  induction deps as [|a deps IH]; intros i v Hi Hv; [done|].
  destruct (validKey a) eqn:Ha.
  - destruct i as [|i]; simpl in Hi; [congruence|].
    destruct (IH _ _ Hi Hv) as (pre & bad & post & -> & Hpre & Hbad & Hlen).
    exists (a :: pre), bad, post. repeat split; [by constructor|done|simpl; lia].
  - exists [], a, deps. repeat split; [done..|simpl; lia].
Qed.

(** With a forest and a valid start, the walk stops exactly at the first
    invalid dependent, after the steps for the ones before it. *)
Lemma reduce_from_first_invalid pathOf h m pre bad post i arr :
  heap_inv pathOf h → m < length h →
  Forall (λ k, validKey k = true) pre → validKey bad = false →
  ∃ l h', reduce_from h m pre i arr = (inr l, h') ∧
          reduce_from h m (pre ++ bad :: post) i arr = (inl InvalidDependentKey, h') ∧
          grows h h'.
Proof.
  intros Hinv Hm Hpre Hbad.
  destruct (reduce_from_inv pre h m i arr pathOf Hinv Hm)
    as (r & h' & pathOf' & Hwalk & _ & _ & Hgrows & _ & Hr).
  destruct r as [e|l].
  - destruct Hr as [_ Hex]. apply Exists_exists in Hex as (k & Hin & Hk).
    rewrite Forall_forall in Hpre. specialize (Hpre _ Hin). congruence.
  - exists l, h'. split; [done|]. split; [|done].
    rewrite reduce_from_app, Hwalk. simpl.
    by rewrite insertDependentKey_invalid.
Qed.

(** [null] and [undefined] take the same step. *)
Lemma insertDependentKey_nullish h m a b i arr1 arr2 :
  nullishEquiv a b → length arr1 = length arr2 →
  insertDependentKey h m a i arr1 = insertDependentKey h m b i arr2.
Proof.
  intros [->|[Ha Hb]] Hlen; unfold insertDependentKey; rewrite Hlen; [done|].
  by destruct a, b.
Qed.

Lemma reduce_from_nullish rest1 rest2 : ∀ h m i arr1 arr2,
  Forall2 nullishEquiv rest1 rest2 → length arr1 = length arr2 →
  reduce_from h m rest1 i arr1 = reduce_from h m rest2 i arr2.
Proof.
  intros h m i arr1 arr2 Hrest. revert h m i.
  induction Hrest as [|a b rest1 rest2 Hab _ IH]; intros h m i Hlen; simpl; [done|].
  rewrite (insertDependentKey_nullish h m a b i arr1 arr2 Hab Hlen).
  destruct (insertDependentKey h m b i arr2) as [[e|m1] h1]; [done|].
  by apply IH.
Qed.

Lemma nullishEquiv_sameIdentity a b : nullishEquiv a b → sameIdentity a b.
Proof. intros [->|[Ha Hb]]; [done|]. by destruct a, b. Qed.

(** From a map without object keys, every step allocates: the walk ends in
    the map it created last. *)
Lemma reduce_from_fresh rest : ∀ h m o i arr,
  h !! m = Some o → okeys o = ∅ →
  ∃ h',
    if forallb validKey rest then
      ∃ leaf, reduce_from h m rest i arr = (inr leaf, h') ∧
        match rest with
        | [] => leaf = m ∧ h' = h
        | _ => h' !! leaf =
               Some (if Nat.eqb (i + length rest - 1) (length arr - 1)
                     then newMap else newWeakMap)
        end
    else reduce_from h m rest i arr = (inl InvalidDependentKey, h').
Proof.
  induction rest as [|key rest IH]; intros h m o i arr Hm Ho; simpl.
  - exists h, m. done.
  - destruct (validKey key) eqn:Hkey; simpl.
    + rewrite insertDependentKey_valid, Hm, Ho, lookup_empty by done.
      set (new := if Nat.eqb i (length arr - 1) then newMap else newWeakMap).
      set (h1 := <[m := map_set_obj o (weakMapKeyOf key) (length h)]> (h ++ [new])).
      assert (h1 !! length h = Some new) as Hnew.
      { unfold h1. apply lookup_lt_Some in Hm.
        rewrite list_lookup_insert_ne by lia.
        by rewrite lookup_app_r, Nat.sub_diag by lia. }
      assert (okeys new = ∅) as Honew by (unfold new; by destruct (Nat.eqb _ _)).
      destruct (IH h1 (length h) new (S i) arr Hnew Honew) as [h' Hrest].
      exists h'. destruct (forallb validKey rest); [|done].
      destruct Hrest as (leaf & Hwalk & Hleaf). exists leaf. split; [done|].
      destruct rest as [|k2 rest].
      * destruct Hleaf as [-> ->]. rewrite Hnew. unfold new. simpl.
        by replace (i + 1 - 1) with i by lia.
      * rewrite Hleaf. simpl length.
        by replace (S i + S (length rest) - 1) with (i + S (S (length rest)) - 1) by lia.
    + rewrite insertDependentKey_invalid by done. by exists h.
Qed.

Lemma reduce_from_grows rest : ∀ h m i arr r h',
  reduce_from h m rest i arr = (r, h') → grows h h'.
Proof.
  induction rest as [|key rest IH]; intros h m i arr r h'; simpl.
  - intros [= <- <-]. apply grows_refl.
  - destruct (insertDependentKey h m key i arr) as [r1 h1] eqn:Hstep.
    assert (grows h h1) as Hgrows1.
    { destruct (validKey key) eqn:Hkey.
      - rewrite insertDependentKey_valid in Hstep by done.
        destruct (h !! m) as [o|] eqn:Hm;
          [|injection Hstep as <- <-; apply grows_refl].
        destruct (okeys o !! weakMapKeyOf key) eqn:Hk; injection Hstep as <- <-;
          [apply grows_refl|].
        apply grows_insert_alloc; [done..| |]; by destruct (Nat.eqb _ _).
      - rewrite insertDependentKey_invalid in Hstep by done.
        injection Hstep as <- <-. apply grows_refl. }
    destruct r1 as [e|m1].
    + by intros [= <- <-].
    + intros Hrest. eapply grows_trans; [done | by eapply IH].
Qed.

(** ** Further facts about calls *)

Section CallFacts.

Variable NODE_ENV : option string.
Variable getDependents selector : value.
Variable getDependents_body : value → list value → list value.
Variable selector_body : list value → list value → value.
Variable options : Options.

Abbreviation call :=
  (cachedSelector NODE_ENV getDependents selector
     getDependents_body selector_body options).
Abbreviation key := (activeGetCacheKey options).
Abbreviation rejects := (rejectsArgs NODE_ENV options).
Abbreviation pathOfCall state args :=
  (map weakMapKeyOf (getDependents_body state args)).

Lemma isFunction_typeof fn :
  isFunction fn = true ↔ typeof fn = "function".
Proof.
  unfold isFunction. split.
  - intros [_ Heq%String.eqb_eq]%andb_true_iff. done.
  - intros Ht. by destruct fn.
Qed.

Lemma treeSelect_callable st :
  development NODE_ENV = true →
  treeSelect NODE_ENV getDependents selector = inr st →
  typeof getDependents = "function" ∧ typeof selector = "function".
Proof.
  unfold treeSelect. intros ->. simpl.
  destruct (isFunction getDependents) eqn:Hd; [|done].
  destruct (isFunction selector) eqn:Hs; [|done].
  intros _. by split; apply isFunction_typeof.
Qed.

(** A successful call either found its Result in the cache it started
    from, or that cache had none and it computed one. *)
Lemma call_ok_cases st state args v :
  ret (call st state args) = inr v →
  (invocations (call st state args) = 0 ∧
   cachedAt st (pathOfCall state args) (key args) = Some v) ∨
  (invocations (call st state args) = 1 ∧
   cachedAt st (pathOfCall state args) (key args) = None ∧
   typeof selector = "function" ∧
   v = selector_body (getDependents_body state args) args).
Proof.
  unfold cachedSelector.
  destruct (negb _); [done|].
  destruct (_ && _ && existsb _ _); [done|].
  destruct (reduce _ _ _) as [[e|leaf] h'] eqn:Hwalk; [done|].
  pose proof (reduce_from_grows _ _ _ _ _ _ _ Hwalk) as Hgrows.
  destruct (reduce_from_nodeAt _ _ _ _ _ _ _ Hwalk) as [Hnode _].
  pose proof (grows_cachedAt _ _ (cache st) (pathOfCall state args) (key args) Hgrows)
    as Hsame.
  replace (Store (heap st) (cache st)) with st in Hsame by (by destruct st).
  rewrite <- Hsame. unfold cachedAt. simpl. rewrite Hnode.
  destruct (h' !! leaf) as [o|] eqn:Hleaf; [|done].
  unfold map_has_str, map_get_str, map_set_str.
  destruct (kind o).
  - by destruct (negb _).
  - destruct (skeys o !! key args) as [w|] eqn:Hk; simpl.
    + intros [= <-]. by left.
    + destruct (String.eqb (typeof selector) "function") eqn:Hsel; [|done].
      apply String.eqb_eq in Hsel. simpl. intros [= <-]. by right.
Qed.

(** A call changes no Result stored under another key path. *)
Lemma call_frame pathOf st state args p k :
  store_inv pathOf st → p ≠ pathOfCall state args →
  cachedAt (after (call st state args)) p k = cachedAt st p k.
Proof.
  intros (Hinv & Hroot & oroot & Horoot & Hkroot) Hp. unfold cachedSelector.
  destruct (negb _); [done|].
  destruct (_ && _ && existsb _ _); [done|].
  destruct (reduce_from_inv (getDependents_body state args) (heap st) (cache st)
              0 (getDependents_body state args) pathOf Hinv
              (lookup_lt_Some _ _ _ Horoot))
    as (r & h' & pathOf' & Hwalk & Hinv' & Hagree & Hgrows & _ & Hr).
  unfold reduce. rewrite Hwalk.
  pose proof (grows_cachedAt _ _ (cache st) p k Hgrows) as Hsame.
  replace (Store (heap st) (cache st)) with st in Hsame by (by destruct st).
  destruct r as [e|leaf]; [done|].
  destruct (h' !! leaf) as [o|] eqn:Hleaf; [|done].
  destruct (map_has_str o _); [done|].
  destruct (negb _); [done|].
  destruct (map_set_str o _ _) as [o'|] eqn:Hset; [|done].
  simpl. rewrite <- Hsame. eapply set_str_cachedAt; [done..|].
  destruct Hr as (_ & _ & ->).
  rewrite Hagree by (by eapply lookup_lt_Some). rewrite Hroot. simpl. congruence.
Qed.

(** On a root without entries the outcome does not depend on the heap. *)
Lemma call_on_empty_root st state args :
  heap st !! cache st = Some newWeakMap →
  (ret (call st state args), invocations (call st state args)) =
  emptyCacheOutcome NODE_ENV getDependents selector
    getDependents_body selector_body options state args.
Proof.
  intros Hroot. unfold cachedSelector, emptyCacheOutcome, rejectsArgs, reduce.
  destruct (negb (String.eqb (typeof getDependents) _)); [done|].
  destruct (_ && _ && existsb _ _); [done|].
  destruct (reduce_from_fresh (getDependents_body state args) (heap st) (cache st)
              newWeakMap 0 (getDependents_body state args) Hroot eq_refl)
    as [h' Hwalk].
  destruct (forallb validKey (getDependents_body state args)); simpl;
    [|by rewrite Hwalk].
  destruct Hwalk as (leaf & -> & Hleaf).
  destruct (getDependents_body state args) as [|d deps] eqn:Hdeps.
  - destruct Hleaf as [-> ->]. rewrite Hroot. simpl.
    by destruct (negb _).
  - rewrite Hleaf. simpl length.
    replace (0 + S (length deps) - 1) with (S (length deps) - 1) by lia.
    rewrite Nat.eqb_refl. simpl. by destruct (negb _).
Qed.

(** With no dependents the leaf is the root [WeakMap]: the lookup misses
    and the store of the Result throws. *)
Lemma call_empty_deps st state args :
  getDependents_body state args = [] →
  (∃ o, heap st !! cache st = Some o ∧ kind o = WeakMapK) →
  (∀ v, ret (call st state args) ≠ inr v) ∧
  (typeof getDependents = "function" → rejects args = false →
   typeof selector = "function" →
   call st state args = Outcome (inl WeakMapKeyError) 1 st).
Proof.
  intros Hdeps (o & Horoot & Hkind).
  unfold cachedSelector, rejectsArgs, reduce. rewrite Hdeps. simpl.
  rewrite Horoot. unfold map_has_str, map_set_str. rewrite Hkind. split.
  - intros v. destruct (negb _); [done|].
    destruct (_ && _ && existsb _ _); [done|]. by destruct (negb _).
  - intros -> -> ->. simpl. by destruct st.
Qed.

(** Once the walk of a call is done, the call only adds to the heap. *)
Lemma call_after_walk st state args leaf h' :
  typeof getDependents = "function" → rejects args = false →
  reduce (heap st) (cache st) (getDependents_body state args) = (inr leaf, h') →
  heap_le h' (heap (after (call st state args))) ∧
  cache (after (call st state args)) = cache st.
Proof.
  unfold cachedSelector, rejectsArgs. intros -> -> ->. simpl.
  destruct (h' !! leaf) as [o|] eqn:Hleaf; [|split; [apply heap_le_refl|done]].
  destruct (map_has_str o _) eqn:Hhas; [split; [apply heap_le_refl|done]|].
  destruct (negb _); [split; [apply heap_le_refl|done]|].
  destruct (map_set_str o _ _) as [o'|] eqn:Hset;
    [|split; [apply heap_le_refl|done]].
  split; [|done]. by eapply heap_le_set_str.
Qed.

End CallFacts.

(** ** Facts used by several claims *)

Lemma forallb_validKey deps :
  Forall (λ k, validKey k = true) deps → forallb validKey deps = true.
Proof. induction 1 as [|k deps Hk _ IH]; simpl; [done|]. by rewrite Hk, IH. Qed.

Lemma cachedAt_empty_root st p k :
  heap st !! cache st = Some newWeakMap → cachedAt st p k = None.
Proof.
  intros Hroot. unfold cachedAt. destruct p as [|k0 p]; simpl; by rewrite Hroot.
Qed.

Lemma nodeAt_lt pathOf h p : ∀ m l,
  heap_inv pathOf h → m < length h → nodeAt h m p = Some l → l < length h.
Proof.
  induction p as [|k p IH]; intros m l Hinv Hm; simpl.
  - by intros [= <-].
  - destruct (h !! m) as [o|] eqn:Hlook; [|done].
    destruct (okeys o !! k) as [l1|] eqn:Hk; [|done].
    apply IH; [done|]. destruct Hinv as [Hedges _].
    by destruct (Hedges _ _ _ _ Hlook Hk).
Qed.

Lemma nodeAt_start h p m l :
  nodeAt h m p = Some l → is_Some (h !! l) → is_Some (h !! m).
Proof.
  destruct p as [|k p]; simpl; [by intros [= <-]|].
  destruct (h !! m); [eauto | done].
Qed.

(** Under the depth discipline, depth and kind of a map follow from the
    length of its key path. *)
Lemma shaped_depth n pathOf h root p l :
  heap_inv pathOf h → pathOf root = [] → shaped n pathOf h →
  nodeAt h root p = Some l →
  length p ≤ n ∧
  ∀ o, h !! l = Some o → kind o = (if length p <? n then WeakMapK else MapK).
Proof.
  intros Hinv Hroot Hshaped Hnode.
  pose proof (nodeAt_pathOf _ _ _ _ _ Hinv Hnode) as Hpath.
  rewrite Hroot in Hpath. simpl in Hpath. split.
  - destruct p as [|k p _] using rev_ind; [simpl; lia|].
    rewrite nodeAt_app in Hnode.
    destruct (nodeAt h root p) as [l1|] eqn:Hn1; [|done]. simpl in Hnode.
    destruct (h !! l1) as [o1|] eqn:Hl1; [|done].
    destruct (okeys o1 !! k) as [l2|] eqn:Hk; [|done].
    pose proof (nodeAt_pathOf _ _ _ _ _ Hinv Hn1) as Hpath1.
    rewrite Hroot in Hpath1. simpl in Hpath1.
    destruct (Hshaped _ _ Hl1) as [_ Hout]. specialize (Hout _ _ Hk).
    rewrite Hpath1 in Hout. rewrite length_app. simpl. lia.
  - intros o Hl. destruct (Hshaped _ _ Hl) as [Hkind _]. by rewrite Hpath in Hkind.
Qed.

(** ** Results and the computation function *)

Section Callable.

Variable NODE_ENV : option string.
Variable getDependents selector : value.
Variable getDependents_body : value → list value → list value.
Variable selector_body : list value → list value → value.
Variable options : Options.

Abbreviation call :=
  (cachedSelector NODE_ENV getDependents selector
     getDependents_body selector_body options).
Abbreviation exec :=
  (run NODE_ENV getDependents selector
     getDependents_body selector_body options).

(** Only a callable computation function puts Results into the cache. *)
Lemma call_results_callable st state args :
  (∀ l o, heap st !! l = Some o → skeys o ≠ ∅ → typeof selector = "function") →
  ∀ l o, heap (after (call st state args)) !! l = Some o → skeys o ≠ ∅ →
         typeof selector = "function".
Proof.
  intros Hst. unfold cachedSelector.
  destruct (negb _); [done|].
  destruct (_ && _ && existsb _ _); [done|].
  destruct (reduce _ _ _) as [r h'] eqn:Hwalk.
  pose proof (reduce_from_grows _ _ _ _ _ _ _ Hwalk) as (_ & Hold & Hnew & _).
  assert (∀ l o, h' !! l = Some o → skeys o ≠ ∅ → typeof selector = "function")
    as Hh'.
  { intros l o Hl Hne. destruct (decide (l < length (heap st))) as [Hlt|Hge].
    - destruct (lookup_lt_is_Some_2 _ _ Hlt) as [o0 Hl0].
      destruct (Hold _ _ Hl0) as (o' & Hl' & _ & Hs & _).
      assert (o' = o) as -> by congruence. rewrite Hs in Hne. by eapply Hst.
    - by rewrite (Hnew _ _ Hl) in Hne by lia. }
  destruct r as [e|leaf]; [done|].
  destruct (h' !! leaf) as [oleaf|]; [|done].
  destruct (map_has_str oleaf _); [done|].
  destruct (String.eqb (typeof selector) "function") eqn:Hsel; [|done].
  by apply String.eqb_eq in Hsel.
Qed.

Lemma exec_results_callable ops : ∀ st,
  (∀ l o, heap st !! l = Some o → skeys o ≠ ∅ → typeof selector = "function") →
  ∀ l o, heap (exec st ops) !! l = Some o → skeys o ≠ ∅ →
         typeof selector = "function".
Proof.
  induction ops as [|o ops IH]; intros st Hst; simpl; [done|].
  apply IH. destruct o as [state args|]; simpl.
  - by apply call_results_callable.
  - intros l o [[_ Hl]|[_ <-]]%lookup_snoc_Some; [by eapply Hst | done].
Qed.

(** On a store reached from a newly built selector, a call can only
    succeed when the computation function is callable. *)
Lemma reachable_ok_callable ops state args v :
  ret (call (exec initialStore ops) state args) = inr v →
  typeof selector = "function".
Proof.
  intros Hok.
  destruct (call_ok_cases _ _ _ _ _ _ _ _ _ _ Hok)
    as [[_ Hhit]|(_ & _ & Hsel & _)]; [|done].
  unfold cachedAt in Hhit.
  destruct (nodeAt _ _ _) as [l|]; [|done].
  destruct (heap (exec initialStore ops) !! l) as [o|] eqn:Hl; [|done].
  destruct (kind o); [done|].
  eapply (exec_results_callable ops initialStore); [|done|].
  - intros l0 o0 Hl0%list_lookup_singleton_Some. by destruct Hl0 as [_ <-].
  - intros Hempty. by rewrite Hempty in Hhit.
Qed.

End Callable.

(** * The claims of the specification *)

Section Claims.

Variable NODE_ENV : option string.
Variable getDependents selector : value.
Variable getDependents_body : value → list value → list value.
Variable selector_body : list value → list value → value.
Variable options : Options.

Abbreviation call :=
  (cachedSelector NODE_ENV getDependents selector
     getDependents_body selector_body options).
Abbreviation exec :=
  (run NODE_ENV getDependents selector
     getDependents_body selector_body options).
Abbreviation key := (activeGetCacheKey options).
Abbreviation rejects := (rejectsArgs NODE_ENV options).
Abbreviation dependentsOf state args := (getDependents_body state args).
Abbreviation pathOfCall state args :=
  (map weakMapKeyOf (getDependents_body state args)).

(** C6. Outside production mode, [treeSelect] throws the InvalidArgument
    TypeError as soon as the dependents function or the computation
    function is not a function; in production mode the test is skipped and
    construction yields the selector with its empty root WeakMap whatever
    the two arguments are. Only function values pass [isFunction]. *)
Theorem C6_construction_check :
  (NODE_ENV ≠ Some "production" →
   isFunction getDependents = false ∨ isFunction selector = false →
   treeSelect NODE_ENV getDependents selector = inl InvalidArgument) ∧
  (NODE_ENV = Some "production" →
   treeSelect NODE_ENV getDependents selector = inr initialStore) ∧
  (∀ fn, isFunction fn = true ↔ ∃ r src, fn = VFunction r src).
Proof.
  unfold treeSelect, development. split; [|split].
  - intros Hne Hfn. rewrite bool_decide_eq_false_2 by done. simpl.
    destruct Hfn as [-> | ->]; [done|]. by rewrite orb_true_r.
  - intros ->. by rewrite bool_decide_eq_true_2.
  - intros fn. split; [|by intros (r & src & ->)].
    unfold isFunction. destruct fn; simpl; rewrite ?andb_false_r; try done. eauto.
Qed.

(** C2 (amended). Outside production mode and with the default key
    derivation, a call of a constructed selector whose extra arguments
    include a non-null value of typeof 'object' (a plain object or an
    array; a function is not detected) throws the CacheKeyError: nothing is
    computed and the store is left as it was. With a key derivation of the
    caller, or in production mode, no call throws that error. *)
Theorem C2_default_key_check st0 st state args :
  treeSelect NODE_ENV getDependents selector = inr st0 →
  (development NODE_ENV = true → getCacheKey options = None →
   existsb isObject args = true →
   call st state args = Outcome (inl CacheKeyError) 0 st) ∧
  (development NODE_ENV = false ∨ getCacheKey options ≠ None →
   ret (call st state args) ≠ inl CacheKeyError) ∧
  (∀ v, isObject v = true ↔
        (∃ r, v = VObject r) ∨ (∃ r elems, v = VArray r elems)).
Proof.
  intros Hbuilt. split; [|split].
  - intros Hdev Hkey Hargs.
    destruct (treeSelect_callable _ _ _ _ Hdev Hbuilt) as [Hfn _].
    unfold cachedSelector, usesDefaultKey. by rewrite Hfn, Hdev, Hkey, Hargs.
  - intros Hoff. unfold cachedSelector.
    destruct (negb _); [done|].
    assert (development NODE_ENV && usesDefaultKey options
            && existsb isObject args = false) as ->.
    { unfold usesDefaultKey. destruct Hoff as [-> | Hk]; [done|].
      destruct (getCacheKey options); [|done]. by rewrite andb_false_r. }
    destruct (reduce _ _ _) as [[e|leaf] h'] eqn:Hwalk.
    + by destruct (reduce_from_error_kind _ _ _ _ _ _ _ Hwalk) as [-> | ->].
    + destruct (h' !! leaf) as [o|]; [|done].
      destruct (map_has_str o _); [done|].
      destruct (negb _); [done|]. by destruct (map_set_str o _ _).
  - intros v. split.
    + unfold isObject. destruct v; simpl; rewrite ?andb_false_r; try done; eauto.
    + by intros [(r & ->) | (r & elems & ->)].
Qed.

(** C1 (amended). Take two calls of one cached selector, the second after
    the first with any calls but no clearCache in between, whose dependents
    hold the same object identities at every position and whose extra
    arguments derive the same leaf key. If the first call returns a Result
    and the development-mode argument check does not reject the second,
    the second call returns that same Result, invokes the computation
    function not at all and leaves the store as it found it; across the two
    calls the computation function is invoked at most once. *)
Theorem C1_memoized_reuse st state1 args1 v ops state2 args2 :
  ret (call st state1 args1) = inr v →
  Forall (λ o, o ≠ ClearCache) ops →
  Forall2 sameIdentity (dependentsOf state1 args1) (dependentsOf state2 args2) →
  key args1 = key args2 →
  rejects args2 = false →
  let first := call st state1 args1 in
  let st1 := exec (after first) ops in
  let second := call st1 state2 args2 in
  ret second = inr v ∧ invocations second = 0 ∧ after second = st1 ∧
  invocations first + invocations second ≤ 1.
Proof.
  intros Hok Hops Hsame Hkey Hargs first st1 second.
  destruct (memo_reuse _ _ _ _ _ _ _ _ _ _ _ _ _ Hok Hops Hsame Hkey Hargs)
    as [Hsecond Hfirst].
  unfold second, st1, first. rewrite Hsecond. simpl.
  repeat split; [done..|]. unfold first. lia.
Qed.

(** C7 (amended). The default key derivation is [args.join()]: the
    stringified extra arguments joined with a comma. Hence, under the
    default derivation, take two calls, the second after the first with any
    calls but no clearCache in between, with the same dependents identities
    and different extra arguments that join to the same string. If the
    first call returns a Result and the development-mode argument check
    lets the second through (production mode, or no extra argument of
    typeof 'object'), the second call returns that Result without invoking
    the computation function and leaves the store as it found it. *)
Theorem C7_default_key_collision st state1 args1 v ops state2 args2 :
  getCacheKey options = None →
  ((∀ args, key args = defaultGetCacheKey args) ∧
   defaultGetCacheKey [] = "" ∧
   (∀ x, defaultGetCacheKey [x] = joinElem x) ∧
   (∀ x y rest, defaultGetCacheKey (x :: y :: rest)
                = joinElem x +:+ "," +:+ defaultGetCacheKey (y :: rest))) ∧
  (ret (call st state1 args1) = inr v →
   Forall (λ o, o ≠ ClearCache) ops →
   Forall2 sameIdentity (dependentsOf state1 args1) (dependentsOf state2 args2) →
   args1 ≠ args2 →
   defaultGetCacheKey args1 = defaultGetCacheKey args2 →
   development NODE_ENV = false ∨ existsb isObject args2 = false →
   let st1 := exec (after (call st state1 args1)) ops in
   let second := call st1 state2 args2 in
   ret second = inr v ∧ invocations second = 0 ∧ after second = st1).
Proof.
  intros Hdefault.
  assert (∀ args, key args = defaultGetCacheKey args) as Hkey
    by (intros args; unfold activeGetCacheKey; by rewrite Hdefault).
  split; [done|]. intros Hok Hops Hsame _ Hjoin Hpass st1 second.
  assert (rejects args2 = false) as Hargs.
  { unfold rejectsArgs. destruct Hpass as [-> | ->]; [done|].
    by rewrite andb_false_r. }
  destruct (memo_reuse NODE_ENV getDependents selector getDependents_body
              selector_body options st state1 args1 v ops state2 args2
              Hok Hops Hsame) as [Hsecond _]; [|done|].
  - by rewrite !Hkey.
  - unfold second, st1. by rewrite Hsecond.
Qed.

(** C4. [null] and [undefined] are both replaced by the one [NULLISH_KEY]
    object, so they take the same step at any tree position; two dependents
    sequences that differ only by [null] against [undefined] walk to the
    same map and leave the same heap; and a call that differs from a
    successful earlier call only in that way returns the earlier Result
    without computing. *)
Theorem C4_nullish_normalization st state1 state2 args v h m i arr1 arr2 :
  (weakMapKeyOf VNull = NULLISH_KEY ∧ weakMapKeyOf VUndefined = NULLISH_KEY) ∧
  (length arr1 = length arr2 →
   insertDependentKey h m VNull i arr1 = insertDependentKey h m VUndefined i arr2) ∧
  (Forall2 nullishEquiv (dependentsOf state1 args) (dependentsOf state2 args) →
   reduce (heap st) (cache st) (dependentsOf state1 args) =
   reduce (heap st) (cache st) (dependentsOf state2 args) ∧
   (ret (call st state1 args) = inr v →
    let second := call (after (call st state1 args)) state2 args in
    ret second = inr v ∧ invocations second = 0)).
Proof.
  split; [done|]. split.
  - intros Hlen. apply insertDependentKey_nullish; [|done]. by right.
  - intros Hequiv. split.
    + unfold reduce. apply reduce_from_nullish; [done|].
      by eapply Forall2_length.
    + intros Hok second.
      destruct (call_ok _ _ _ _ _ _ _ _ _ _ Hok) as (_ & Hargs & _).
      destruct (memo_reuse NODE_ENV getDependents selector getDependents_body
                  selector_body options st state1 args v [] state2 args
                  Hok (Forall_nil_2 _)) as [Hsecond _]; [|done|done|].
      * eapply Forall2_impl; [done|]. apply nullishEquiv_sameIdentity.
      * simpl in Hsecond. unfold second. by rewrite Hsecond.
Qed.

(** C5. [clearCache] always succeeds and returns nothing: it binds [cache]
    to a newly allocated, empty WeakMap and touches no other object, so the
    cache holds no Result any more. Clearing twice leaves the same root as
    clearing once, and every call behaves alike after either. A call that
    returned a Result before computes again after a clearCache, whichever
    store is cleared: it invokes the computation function once and returns
    what that computes. *)
Theorem C5_clearCache ops st' state args v :
  let st := exec initialStore ops in
  (clearCache st = (inr tt, Store (heap st ++ [newWeakMap]) (length (heap st))) ∧
   heap (snd (clearCache st)) !! cache (snd (clearCache st)) = Some newWeakMap ∧
   (∀ p k, cachedAt (snd (clearCache st)) p k = None)) ∧
  (let once := snd (clearCache st) in
   let twice := snd (clearCache once) in
   heap twice !! cache twice = heap once !! cache once ∧
   ∀ state' args',
     ret (call twice state' args') = ret (call once state' args') ∧
     invocations (call twice state' args') = invocations (call once state' args')) ∧
  (ret (call st state args) = inr v →
   let again := call (snd (clearCache st')) state args in
   ret again = inr (selector_body (dependentsOf state args) args) ∧
   invocations again = 1).
Proof.
  intros st.
  assert (∀ s, heap (snd (clearCache s)) !! cache (snd (clearCache s))
               = Some newWeakMap) as Hroot.
  { intros s. simpl. apply lookup_snoc_Some. by right. }
  split; [|split].
  - split; [done|]. split; [apply Hroot|].
    intros p k. apply cachedAt_empty_root, Hroot.
  - intros once twice. split; [unfold twice, once; by rewrite !Hroot|].
    intros state' args'.
    pose proof (call_on_empty_root NODE_ENV getDependents selector
      getDependents_body selector_body options twice state' args' (Hroot _)) as H2.
    pose proof (call_on_empty_root NODE_ENV getDependents selector
      getDependents_body selector_body options once state' args' (Hroot _)) as H1.
    rewrite <- H1 in H2. by injection H2.
  - intros Hok again.
    pose proof (reachable_ok_callable _ _ _ _ _ _ _ _ _ _ Hok) as Hsel.
    destruct (call_ok _ _ _ _ _ _ _ _ _ _ Hok) as (Hfn & Hargs & Hvalid & _).
    pose proof (call_on_empty_root NODE_ENV getDependents selector
      getDependents_body selector_body options _ state args (Hroot st')) as Hagain.
    unfold emptyCacheOutcome in Hagain.
    rewrite Hfn, Hargs, (forallb_validKey _ Hvalid), Hsel in Hagain. simpl in Hagain.
    destruct (getDependents_body state args) as [|d deps] eqn:Hdeps.
    + destruct (reachable_inv NODE_ENV getDependents selector getDependents_body
                  selector_body options 0 ops) as (pathOf & (_ & _ & Hweak) & _).
      destruct (call_empty_deps NODE_ENV getDependents selector getDependents_body
                  selector_body options st state args Hdeps Hweak) as [Hnever _].
      by destruct (Hnever v).
    + unfold again. by injection Hagain.
Qed.

(** C10. When the dependents function returns an empty sequence, the walk
    ends where it starts: the leaf is the root, and the root is a WeakMap.
    Such a call never returns a value; when it gets as far as the lookup it
    misses, invokes the computation function once and throws on storing the
    Result under the string key, leaving the store as it was. *)
Theorem C10_empty_dependents ops state args :
  dependentsOf state args = [] →
  let st := exec initialStore ops in
  reduce (heap st) (cache st) (dependentsOf state args) = (inr (cache st), heap st) ∧
  (∃ o, heap st !! cache st = Some o ∧ kind o = WeakMapK) ∧
  (∀ v, ret (call st state args) ≠ inr v) ∧
  (typeof getDependents = "function" → rejects args = false →
   typeof selector = "function" →
   call st state args = Outcome (inl WeakMapKeyError) 1 st).
Proof.
  intros Hdeps st.
  destruct (reachable_inv NODE_ENV getDependents selector getDependents_body
              selector_body options 0 ops) as (pathOf & (_ & _ & Hweak) & _).
  split; [by rewrite Hdeps|]. split; [done|].
  by apply call_empty_deps.
Qed.

(** C3 (amended). Let the dependents of a call hold, at position [i], a
    primitive other than [null] and [undefined]. In every build mode the
    call fails and computes nothing. It throws the InvalidDependentKey
    TypeError unless the development-mode argument check has already
    thrown the CacheKeyError (then the store is untouched). With
    InvalidDependentKey, the store left is the one produced by the steps
    for the [j <= i] valid dependents before the first offending one:
    their levels are there, nothing is done at position [j] or later, and
    no stored Result has changed. *)
Theorem C3_invalid_dependent ops state args i v :
  typeof getDependents = "function" →
  dependentsOf state args !! i = Some v →
  validKey v = false →
  let st := exec initialStore ops in
  (rejects args = true ∧ call st state args = Outcome (inl CacheKeyError) 0 st) ∨
  (rejects args = false ∧
   ∃ j bad l h',
     j ≤ i ∧
     Forall (λ k, validKey k = true) (take j (dependentsOf state args)) ∧
     dependentsOf state args !! j = Some bad ∧ validKey bad = false ∧
     reduce_from (heap st) (cache st) (take j (dependentsOf state args)) 0
       (dependentsOf state args) = (inr l, h') ∧
     call st state args = Outcome (inl InvalidDependentKey) 0 (Store h' (cache st)) ∧
     nodeAt h' (cache st) (map weakMapKeyOf (take j (dependentsOf state args)))
       = Some l ∧
     (∀ p k, cachedAt (Store h' (cache st)) p k = cachedAt st p k)).
Proof.
  intros Hfn Hi Hv st. destruct (rejects args) eqn:Hargs.
  - left. split; [done|]. unfold cachedSelector. rewrite Hfn. simpl.
    unfold rejectsArgs in Hargs. by rewrite Hargs.
  - right. split; [done|].
    destruct (first_invalid _ _ _ Hi Hv) as (pre & bad & post & Hdeps & Hpre & Hbad & Hj).
    destruct (reachable_inv NODE_ENV getDependents selector getDependents_body
                selector_body options 0 ops)
      as (pathOf & (Hinv & _ & oroot & Horoot & _) & _).
    destruct (reduce_from_first_invalid pathOf (heap st) (cache st) pre bad post 0
                (getDependents_body state args) Hinv (lookup_lt_Some _ _ _ Horoot)
                Hpre Hbad) as (l & h' & Hwalk & Hfail & Hgrows).
    exists (length pre), bad, l, h'.
    assert (take (length pre) (getDependents_body state args) = pre) as Htake
      by (rewrite Hdeps; apply take_app_length).
    rewrite Htake. split; [done|]. split; [done|].
    split; [rewrite Hdeps; by apply list_lookup_middle|]. split; [done|].
    split; [done|]. split; [|split].
    + unfold cachedSelector, reduce. rewrite Hfn. simpl.
      unfold rejectsArgs in Hargs. rewrite Hargs.
      rewrite Hdeps in Hfail |- *. by rewrite Hfail.
    + by destruct (reduce_from_nodeAt _ _ _ _ _ _ _ Hwalk).
    + intros p k. rewrite (grows_cachedAt _ _ (cache st) p k Hgrows).
      by destruct st.
Qed.

(** C8. Take a call A that gets as far as the walk and a later call B of
    the same selector (anything may happen in between) whose dependents
    differ from those of A by object identity at some position. The maps
    at which the two walks end are different objects of the heap. The call
    A changes no Result stored under the key path of B, whatever the leaf
    key; so when B follows A and had no Result of its own before, it
    computes one instead of receiving that of A. *)
Theorem C8_tree_isolation ops stateA argsA ops' stateB argsB i a b
    leafA hA leafB hB :
  let st := exec initialStore ops in
  let stA := after (call st stateA argsA) in
  let st' := exec stA ops' in
  typeof getDependents = "function" →
  rejects argsA = false →
  dependentsOf stateA argsA !! i = Some a →
  dependentsOf stateB argsB !! i = Some b →
  weakMapKeyOf a ≠ weakMapKeyOf b →
  reduce (heap st) (cache st) (dependentsOf stateA argsA) = (inr leafA, hA) →
  reduce (heap st') (cache st') (dependentsOf stateB argsB) = (inr leafB, hB) →
  leafA ≠ leafB ∧
  (∀ k, cachedAt stA (pathOfCall stateB argsB) k
        = cachedAt st (pathOfCall stateB argsB) k) ∧
  (∀ v, cachedAt st (pathOfCall stateB argsB) (key argsB) = None →
        ret (call stA stateB argsB) = inr v →
        invocations (call stA stateB argsB) = 1 ∧
        v = selector_body (dependentsOf stateB argsB) argsB).
Proof.
  intros st stA st' Hfn Hargs Ha Hb Hab HwalkA HwalkB.
  assert (pathOfCall stateB argsB ≠ pathOfCall stateA argsA) as Hpaths.
  { intros Heq. apply Hab.
    assert (map weakMapKeyOf (getDependents_body stateB argsB) !! i
            = Some (weakMapKeyOf b)) as Hib by (by rewrite list_lookup_fmap, Hb).
    rewrite Heq, list_lookup_fmap, Ha in Hib. simpl in Hib. congruence. }
  destruct (reachable_inv NODE_ENV getDependents selector getDependents_body
              selector_body options 0 ops) as (pathOf & Hinv & _).
  assert (∀ k, cachedAt stA (pathOfCall stateB argsB) k
               = cachedAt st (pathOfCall stateB argsB) k) as Hframe
    by (intros k; by eapply call_frame).
  split; [|split; [done|]].
  - (* the label of leafA *)
    destruct (call_inv NODE_ENV getDependents selector getDependents_body
                selector_body options pathOf st stateA argsA 0 Hinv)
      as (pathOfA & HinvA & _ & _ & _).
    fold stA in HinvA.
    destruct (call_after_walk NODE_ENV getDependents selector getDependents_body
                selector_body options st stateA argsA leafA hA Hfn Hargs HwalkA)
      as [HleA HcacheA].
    fold stA in HleA, HcacheA.
    destruct (reduce_from_nodeAt _ _ _ _ _ _ _ HwalkA) as [HnodeA _].
    apply (nodeAt_le _ _ _ _ _ HleA) in HnodeA. rewrite <- HcacheA in HnodeA.
    pose proof HinvA as (HheapA & HrootA & orootA & HorootA & _).
    pose proof (nodeAt_pathOf _ _ _ _ _ HheapA HnodeA) as HlabelA.
    rewrite HrootA in HlabelA. simpl in HlabelA.
    pose proof (nodeAt_lt _ _ _ _ _ HheapA (lookup_lt_Some _ _ _ HorootA) HnodeA)
      as HltA.
    (* carried through the calls in between *)
    destruct (exec_inv NODE_ENV getDependents selector getDependents_body
                selector_body options 0 ops' stA pathOfA HinvA)
      as (pathOf' & Hinv' & Hagree' & Hlen' & _).
    fold st' in Hinv', Hlen'.
    destruct Hinv' as (Hheap' & Hroot' & oroot' & Horoot' & _).
    (* and through the walk of B *)
    destruct (reduce_from_inv (getDependents_body stateB argsB) (heap st') (cache st')
                0 (getDependents_body stateB argsB) pathOf' Hheap'
                (lookup_lt_Some _ _ _ Horoot'))
      as (r & h'' & pathOfB & Hwalk & _ & HagreeB & _ & _ & Hr).
    unfold reduce in HwalkB. rewrite HwalkB in Hwalk. injection Hwalk as <- <-.
    destruct Hr as (_ & _ & HlabelB). rewrite Hroot' in HlabelB. simpl in HlabelB.
    intros Heq. apply Hpaths. rewrite <- HlabelB, <- Heq.
    rewrite HagreeB by lia. rewrite Hagree' by lia. done.
  - intros v Hnone Hok.
    destruct (call_ok_cases _ _ _ _ _ _ _ _ _ _ Hok)
      as [[_ Hhit]|(Hone & _ & _ & Hv)]; [|done].
    rewrite Hframe in Hhit. congruence.
Qed.

(** C9 (amended). Let the dependents function return sequences of one
    length [n] on every call. Then for every successful call [n] is at
    least 1; the walk has passed one level per dependent, the levels at the
    positions before the last being WeakMaps and the level at the last
    position a Map; and every map reachable from the root lies at a depth
    of at most [n] and is a Map exactly at depth [n], a WeakMap above: all
    paths from the root to a leaf table have length [n]. *)
Theorem C9_tree_depth n ops state args v :
  (∀ state' args', length (dependentsOf state' args') = n) →
  let c := call (exec initialStore ops) state args in
  ret c = inr v →
  1 ≤ n ∧
  (∀ i, i < n →
     ∃ l o, nodeAt (heap (after c)) (cache (after c))
              (take (S i) (pathOfCall state args)) = Some l ∧
            heap (after c) !! l = Some o ∧
            kind o = (if S i <? n then WeakMapK else MapK)) ∧
  (∀ p l o, nodeAt (heap (after c)) (cache (after c)) p = Some l →
            heap (after c) !! l = Some o →
            length p ≤ n ∧ kind o = (if length p <? n then WeakMapK else MapK)).
Proof.
  intros Hconst c Hok.
  assert (1 ≤ n) as Hn.
  { destruct n as [|n]; [|lia].
    destruct (reachable_inv NODE_ENV getDependents selector getDependents_body
                selector_body options 0 ops) as (pathOf & (_ & _ & Hweak) & _).
    destruct (call_empty_deps NODE_ENV getDependents selector getDependents_body
                selector_body options _ state args
                (nil_length_inv _ (Hconst state args)) Hweak) as [Hnever _].
    by destruct (Hnever v). }
  destruct (reachable_inv NODE_ENV getDependents selector getDependents_body
              selector_body options n ops) as (pathOf & Hinv & Hshaped).
  destruct (call_inv NODE_ENV getDependents selector getDependents_body
              selector_body options pathOf _ state args n Hinv)
    as (pathOf' & (Hheap' & Hroot' & _) & _ & _ & Hshaped').
  specialize (Hshaped' (Hconst _ _) (Hshaped Hconst Hn)). fold c in Hheap', Hroot', Hshaped'.
  assert (∀ p l o, nodeAt (heap (after c)) (cache (after c)) p = Some l →
            heap (after c) !! l = Some o →
            length p ≤ n ∧ kind o = (if length p <? n then WeakMapK else MapK))
    as Hdepth.
  { intros p l o Hnode Hl.
    destruct (shaped_depth n pathOf' _ _ p l Hheap' Hroot' Hshaped' Hnode)
      as [Hlen Hkind]. split; [done | by apply Hkind]. }
  split; [done|]. split; [|done].
  intros i Hi.
  destruct (call_ok _ _ _ _ _ _ _ _ _ _ Hok) as (_ & _ & _ & Hcached & _).
  fold c in Hcached. unfold cachedAt in Hcached.
  destruct (nodeAt (heap (after c)) (cache (after c)) (pathOfCall state args))
    as [leaf|] eqn:Hleaf; [|done].
  destruct (heap (after c) !! leaf) as [oleaf|] eqn:Holeaf; [|done].
  rewrite <- (take_drop (S i) (pathOfCall state args)), nodeAt_app in Hleaf.
  destruct (nodeAt (heap (after c)) (cache (after c))
              (take (S i) (pathOfCall state args))) as [l|] eqn:Hl; [|done].
  destruct (nodeAt_start _ _ _ _ Hleaf) as [o Ho]; [by eauto|].
  exists l, o. split; [done|]. split; [done|].
  destruct (Hdepth _ _ _ Hl Ho) as [_ ->].
  rewrite length_take_le; [done|]. rewrite length_map, Hconst. lia.
Qed.

End Claims.

(** * Closed instances *)

(** A selector built in development mode ([NODE_ENV] unset) and one built
    in production mode, over the sample functions. *)
Abbreviation devCall :=
  (cachedSelector None sampleFn sampleFn sampleDependents sampleSelector
     defaultOptions).
Abbreviation prodCall :=
  (cachedSelector (Some "production") sampleFn sampleFn sampleDependents
     sampleSelector defaultOptions).

Lemma C6_construction_check_witness :
  treeSelect None (VNum 5) sampleFn = inl InvalidArgument ∧
  treeSelect (Some "production") (VNum 5) VNull = inr initialStore.
Proof.
  split.
  - apply (proj1 (C6_construction_check None (VNum 5) sampleFn));
      [discriminate | left; reflexivity].
  - apply (proj1 (proj2 (C6_construction_check (Some "production") (VNum 5) VNull))).
    reflexivity.
Defined.

(** C2 as stated fails: a function among the extra arguments is
    reference-typed, yet in development mode with the default key
    derivation the call is not rejected and returns a Result. *)
Lemma C2_counterexample :
  let c := devCall initialStore (VArray 0 [VObject 1]) [VFunction 7 "f"] in
  development None = true ∧
  getCacheKey defaultOptions = None ∧
  isReference (VFunction 7 "f") = true ∧
  isObject (VFunction 7 "f") = false ∧
  ret c = inr (VStr "1:f") ∧
  ret c ≠ inl CacheKeyError.
Proof. vm_compute. repeat split; discriminate. Qed.

Lemma C2_default_key_check_witness :
  devCall initialStore (VArray 0 [VObject 1]) [VNum 2; VArray 5 []]
  = Outcome (inl CacheKeyError) 0 initialStore.
Proof.
  apply (proj1 (C2_default_key_check None sampleFn sampleFn sampleDependents
                  sampleSelector defaultOptions initialStore initialStore
                  (VArray 0 [VObject 1]) [VNum 2; VArray 5 []] eq_refl));
    reflexivity.
Defined.

(** C1 as stated fails twice. With no dependents (production mode) two
    identical calls invoke the computation function twice and return
    nothing. In development mode a second call whose extra arguments derive
    the same key through an array is rejected instead of served. *)
Lemma C1_counterexample :
  (let first := prodCall initialStore (VArray 0 []) [VStr "a"] in
   let second := prodCall (after first) (VArray 0 []) [VStr "a"] in
   invocations first + invocations second = 2 ∧
   ret first = inl WeakMapKeyError ∧ ret second = inl WeakMapKeyError) ∧
  (let first := devCall initialStore (VArray 0 [VObject 1]) [VStr "a,b"] in
   let second := devCall (after first) (VArray 0 [VObject 1])
                   [VArray 9 [VStr "a"; VStr "b"]] in
   activeGetCacheKey defaultOptions [VStr "a,b"]
   = activeGetCacheKey defaultOptions [VArray 9 [VStr "a"; VStr "b"]] ∧
   ret first = inr (VStr "1:a,b") ∧ invocations first = 1 ∧
   ret second = inl CacheKeyError).
Proof. vm_compute. repeat split. Qed.

Lemma C1_memoized_reuse_witness :
  let first := devCall initialStore (VArray 0 [VObject 1; VNull])
                 [VStr "a"; VStr "b"] in
  let st1 := run None sampleFn sampleFn sampleDependents sampleSelector
               defaultOptions (after first) [Call (VArray 0 [VObject 2]) []] in
  let second := devCall st1 (VArray 5 [VObject 1; VNull]) [VStr "a,b"] in
  ret second = inr (VStr "2:a,b") ∧ invocations second = 0 ∧
  after second = st1 ∧ invocations first + invocations second ≤ 1.
Proof.
  apply (C1_memoized_reuse None sampleFn sampleFn sampleDependents sampleSelector
           defaultOptions initialStore (VArray 0 [VObject 1; VNull])
           [VStr "a"; VStr "b"] (VStr "2:a,b") [Call (VArray 0 [VObject 2]) []]
           (VArray 5 [VObject 1; VNull]) [VStr "a,b"]).
  - reflexivity.
  - repeat constructor. discriminate.
  - repeat constructor.
  - reflexivity.
  - reflexivity.
Defined.

(** C7 as stated fails in two ways. With no dependents the leaf is the
    root WeakMap, which stores nothing: the second call computes again and
    returns nothing. In development mode an array that joins to the same
    key as the string of the first call is rejected. *)
Lemma C7_counterexample :
  (let first := prodCall initialStore (VArray 0 []) [VStr "a"; VStr "b"] in
   let second := prodCall (after first) (VArray 0 []) [VStr "a,b"] in
   defaultGetCacheKey [VStr "a"; VStr "b"] = defaultGetCacheKey [VStr "a,b"] ∧
   ret first = inl WeakMapKeyError ∧
   ret second = inl WeakMapKeyError ∧ invocations second = 1) ∧
  (let first := devCall initialStore (VArray 0 [VObject 1]) [VStr "1,2"] in
   let second := devCall (after first) (VArray 0 [VObject 1])
                   [VArray 9 [VNum 1; VNum 2]] in
   defaultGetCacheKey [VStr "1,2"] = defaultGetCacheKey [VArray 9 [VNum 1; VNum 2]] ∧
   ret first = inr (VStr "1:1,2") ∧
   ret second = inl CacheKeyError).
Proof. vm_compute. repeat split. Qed.

Lemma C7_default_key_collision_witness :
  let first := devCall initialStore (VArray 0 [VObject 1]) [VNum 1; VNum 2] in
  let st1 := run None sampleFn sampleFn sampleDependents sampleSelector
               defaultOptions (after first)
               [Call (VArray 0 [VObject 2]) [VStr "1"; VStr "2"];
                Call (VArray 0 [VNum 5]) []] in
  let second := devCall st1 (VArray 0 [VObject 1]) [VStr "1,2"] in
  ret second = inr (VStr "1:1,2") ∧ invocations second = 0 ∧ after second = st1.
Proof.
  apply (proj2 (C7_default_key_collision None sampleFn sampleFn sampleDependents
                  sampleSelector defaultOptions initialStore
                  (VArray 0 [VObject 1]) [VNum 1; VNum 2] (VStr "1:1,2")
                  [Call (VArray 0 [VObject 2]) [VStr "1"; VStr "2"];
                   Call (VArray 0 [VNum 5]) []]
                  (VArray 0 [VObject 1]) [VStr "1,2"] eq_refl)).
  - reflexivity.
  - repeat constructor; discriminate.
  - repeat constructor.
  - discriminate.
  - reflexivity.
  - right. reflexivity.
Defined.

Lemma C4_nullish_normalization_witness :
  let first := devCall initialStore (VArray 0 [VObject 1; VNull]) [VNum 7] in
  let second := devCall (after first) (VArray 0 [VObject 1; VUndefined]) [VNum 7] in
  ret second = inr (VStr "2:7") ∧ invocations second = 0.
Proof.
  refine (proj2 (proj2 (proj2 (C4_nullish_normalization None sampleFn sampleFn
            sampleDependents sampleSelector defaultOptions initialStore
            (VArray 0 [VObject 1; VNull]) (VArray 0 [VObject 1; VUndefined])
            [VNum 7] (VStr "2:7") [] 0 0 [] [])) _) _).
  - constructor; [by left|]. constructor; [|constructor]. right. by split.
  - reflexivity.
Defined.

Lemma C5_clearCache_witness :
  let st := after (devCall initialStore (VArray 0 [VObject 1]) [VStr "x"]) in
  let again := devCall (snd (clearCache st)) (VArray 0 [VObject 1]) [VStr "x"] in
  ret (devCall st (VArray 0 [VObject 1]) [VStr "x"]) = inr (VStr "1:x") ∧
  invocations (devCall st (VArray 0 [VObject 1]) [VStr "x"]) = 0 ∧
  ret again = inr (VStr "1:x") ∧ invocations again = 1.
Proof.
  split; [reflexivity|]. split; [reflexivity|].
  refine (proj2 (proj2 (C5_clearCache None sampleFn sampleFn sampleDependents
            sampleSelector defaultOptions [Call (VArray 0 [VObject 1]) [VStr "x"]]
            _ (VArray 0 [VObject 1]) [VStr "x"] (VStr "1:x"))) _);
    reflexivity.
Defined.

Lemma C10_empty_dependents_witness :
  prodCall initialStore (VArray 0 []) [VStr "x"]
  = Outcome (inl WeakMapKeyError) 1 initialStore.
Proof.
  refine (proj2 (proj2 (proj2 (C10_empty_dependents (Some "production") sampleFn
            sampleFn sampleDependents sampleSelector defaultOptions []
            (VArray 0 []) [VStr "x"] _))) _ _ _); reflexivity.
Defined.

(** C3 as stated fails in development mode: when an extra argument is an
    object, the call with the primitive dependent [5] throws the
    CacheKeyError, not the InvalidDependentKey TypeError. *)
Lemma C3_counterexample :
  let c := devCall initialStore (VArray 0 [VNum 5]) [VObject 3] in
  sampleDependents (VArray 0 [VNum 5]) [VObject 3] !! 0 = Some (VNum 5) ∧
  isNullish (VNum 5) = false ∧ isReference (VNum 5) = false ∧
  ret c = inl CacheKeyError ∧
  ret c ≠ inl InvalidDependentKey.
Proof. vm_compute. repeat split; discriminate. Qed.

Lemma C3_invalid_dependent_witness :
  ret (prodCall initialStore (VArray 0 [VObject 1; VNum 5; VObject 2]) [VObject 3])
  = inl InvalidDependentKey ∧
  ret (devCall initialStore (VArray 0 [VObject 1; VNum 5; VObject 2]) [])
  = inl InvalidDependentKey.
Proof.
  split.
  - destruct (C3_invalid_dependent (Some "production") sampleFn sampleFn
                sampleDependents sampleSelector defaultOptions []
                (VArray 0 [VObject 1; VNum 5; VObject 2]) [VObject 3] 1 (VNum 5)
                eq_refl eq_refl eq_refl)
      as [[Hrej _] | (_ & j & bad & l & h' & _ & _ & _ & _ & _ & Hcall & _)];
      [discriminate Hrej | exact (f_equal ret Hcall)].
  - destruct (C3_invalid_dependent None sampleFn sampleFn
                sampleDependents sampleSelector defaultOptions []
                (VArray 0 [VObject 1; VNum 5; VObject 2]) [] 1 (VNum 5)
                eq_refl eq_refl eq_refl)
      as [[Hrej _] | (_ & j & bad & l & h' & _ & _ & _ & _ & _ & Hcall & _)];
      [discriminate Hrej | exact (f_equal ret Hcall)].
Defined.

Lemma C8_tree_isolation_witness :
  let stA := after (devCall initialStore (VArray 0 [VObject 1; VObject 2]) []) in
  fst (reduce (heap initialStore) (cache initialStore) [VObject 1; VObject 2])
  = inr 2 ∧
  fst (reduce (heap stA) (cache stA) [VObject 1; VObject 3]) = inr 3 ∧
  2 ≠ 3 ∧
  invocations (devCall stA (VArray 0 [VObject 1; VObject 3]) []) = 1.
Proof.
  split; [reflexivity|]. split; [reflexivity|].
  destruct (C8_tree_isolation None sampleFn sampleFn sampleDependents
              sampleSelector defaultOptions []
              (VArray 0 [VObject 1; VObject 2]) [] []
              (VArray 0 [VObject 1; VObject 3]) [] 1 (VObject 2) (VObject 3)
              2 _ 3 _ eq_refl eq_refl eq_refl eq_refl
              ltac:(discriminate) eq_refl eq_refl) as (Hleaf & _ & Hmiss).
  split; [exact Hleaf|].
  exact (proj1 (Hmiss (VStr "2:") eq_refl eq_refl)).
Defined.

(** C9 as stated fails when the dependents function returns sequences of
    different lengths: after a call with one dependent, a successful call
    with two dependents passes, at its first (not last) position, through
    the Map that the first call created as its leaf table. *)
Lemma C9_counterexample :
  let first := devCall initialStore (VArray 0 [VObject 1]) [] in
  let second := devCall (after first) (VArray 0 [VObject 1; VObject 2]) [] in
  ret first = inr (VStr "1:") ∧
  ret second = inr (VStr "2:") ∧
  nodeAt (heap (after second)) (cache (after second)) [ObjRef 1] = Some 1 ∧
  kind <$> heap (after second) !! 1 = Some MapK ∧
  nodeAt (heap (after second)) (cache (after second)) [ObjRef 1; ObjRef 2] = Some 2 ∧
  kind <$> heap (after second) !! 2 = Some MapK.
Proof. vm_compute. repeat split. Qed.

Lemma C9_tree_depth_witness :
  let c := cachedSelector None sampleFn sampleFn pairDependents sampleSelector
             defaultOptions initialStore (VObject 1) [] in
  1 ≤ 2 ∧
  (∀ i, i < 2 →
     ∃ l o, nodeAt (heap (after c)) (cache (after c))
              (take (S i) (map weakMapKeyOf (pairDependents (VObject 1) [])))
            = Some l ∧
            heap (after c) !! l = Some o ∧
            kind o = (if S i <? 2 then WeakMapK else MapK)) ∧
  (∀ p l o, nodeAt (heap (after c)) (cache (after c)) p = Some l →
            heap (after c) !! l = Some o →
            length p ≤ 2 ∧ kind o = (if length p <? 2 then WeakMapK else MapK)).
Proof.
  apply (C9_tree_depth None sampleFn sampleFn pairDependents sampleSelector
           defaultOptions 2 [] (VObject 1) [] (VStr "2:")); reflexivity.
Defined.

(** * Further properties of the cache *)

Set Warnings "-clear-no-such-hyp".

Lemma reduce_from_length rest : ∀ h m i arr r h',
  reduce_from h m rest i arr = (r, h') → length h' ≤ length h + length rest.
Proof.
  induction rest as [|key rest IH]; intros h m i arr r h'; simpl.
  - intros [= _ <-]. lia.
  - destruct (insertDependentKey h m key i arr) as [r1 h1] eqn:Hstep.
    assert (length h1 ≤ length h + 1) as Hlen1.
    { destruct (validKey key) eqn:Hkey.
      - rewrite insertDependentKey_valid in Hstep by done.
        destruct (h !! m) as [o|]; [|injection Hstep as _ <-; lia].
        destruct (okeys o !! weakMapKeyOf key); injection Hstep as _ <-; [lia|].
        rewrite length_insert, length_app. simpl. lia.
      - rewrite insertDependentKey_invalid in Hstep by done.
        injection Hstep as _ <-. lia. }
    destruct r1 as [e|m1].
    + intros [= _ <-]. lia.
    + intros Hrest. apply IH in Hrest. lia.
Qed.

Lemma string_app_assoc (a b c : string) : (a +:+ b) +:+ c = a +:+ (b +:+ c).
Proof.
  induction a as [|ch a IH]; [done|].
  change (String ch ((a +:+ b) +:+ c) = String ch (a +:+ (b +:+ c))).
  by rewrite IH.
Qed.

Lemma concat_app_nonempty sep (l1 l2 : list string) :
  l1 ≠ [] → l2 ≠ [] →
  String.concat sep (l1 ++ l2)
  = String.concat sep l1 +:+ sep +:+ String.concat sep l2.
Proof.
  intros H1 H2. induction l1 as [|x [|y l1] IH]; [done| |].
  - simpl. by destruct l2.
  - change (String.concat sep ((x :: y :: l1) ++ l2))
      with (x +:+ sep +:+ String.concat sep ((y :: l1) ++ l2)).
    rewrite IH by done.
    change (String.concat sep (x :: y :: l1))
      with (x +:+ sep +:+ String.concat sep (y :: l1)).
    by rewrite !string_app_assoc.
Qed.

(** Replacing one argument by a run of arguments that joins to its string
    form does not change the joined key. *)
Lemma join_splice pre x ys post :
  ys ≠ [] → joinElem x = join ys →
  join (pre ++ x :: post) = join (pre ++ ys ++ post).
Proof.
  unfold join. intros Hys Hx. rewrite !map_app. simpl map.
  assert (map joinElem ys ≠ []) as Hys' by (by destruct ys).
  assert (String.concat "," (joinElem x :: map joinElem post)
          = String.concat "," (map joinElem ys ++ map joinElem post)) as Htail.
  { destruct (map joinElem post) as [|q post'] eqn:Hpost.
    - by rewrite app_nil_r.
    - rewrite concat_app_nonempty by done. by rewrite <- Hx. }
  destruct (map joinElem pre) as [|p0 pre'] eqn:Hpre; [done|].
  rewrite !(concat_app_nonempty _ (p0 :: pre')); [by rewrite Htail|done| |done|done].
  by destruct (map joinElem ys).
Qed.

Section Extras.

Variable NODE_ENV : option string.
Variable getDependents selector : value.
Variable getDependents_body : value → list value → list value.
Variable selector_body : list value → list value → value.
Variable options : Options.

Abbreviation call :=
  (cachedSelector NODE_ENV getDependents selector
     getDependents_body selector_body options).
Abbreviation exec :=
  (run NODE_ENV getDependents selector
     getDependents_body selector_body options).
Abbreviation key := (activeGetCacheKey options).
Abbreviation rejects := (rejectsArgs NODE_ENV options).
Abbreviation dependentsOf state args := (getDependents_body state args).
Abbreviation pathOfCall state args :=
  (map weakMapKeyOf (getDependents_body state args)).

(** A call leaves alone what is stored under any other leaf key. *)
Lemma call_frame_key st state args p k :
  k ≠ key args →
  cachedAt (after (call st state args)) p k = cachedAt st p k.
Proof.
  intros Hk. unfold cachedSelector.
  destruct (negb _); [done|].
  destruct (_ && _ && existsb _ _); [done|].
  destruct (reduce _ _ _) as [r h'] eqn:Hwalk.
  pose proof (reduce_from_grows _ _ _ _ _ _ _ Hwalk) as Hgrows.
  pose proof (grows_cachedAt _ _ (cache st) p k Hgrows) as Hsame.
  replace (Store (heap st) (cache st)) with st in Hsame by (by destruct st).
  destruct r as [e|leaf]; [done|].
  destruct (h' !! leaf) as [o|] eqn:Hleaf; [|done].
  destruct (map_has_str o _); [done|].
  destruct (negb _); [done|].
  destruct (map_set_str o _ _) as [o'|] eqn:Hset; [|done].
  simpl. rewrite <- Hsame. unfold cachedAt. simpl.
  apply map_set_str_Some in Hset as [Hkind ->].
  rewrite (nodeAt_set_str _ _ _ _ _ _ Hleaf) by done.
  destruct (nodeAt h' (cache st) p) as [l|]; [|done].
  destruct (decide (l = leaf)) as [->|Hne].
  - rewrite list_lookup_insert_eq by (by eapply lookup_lt_Some).
    rewrite Hleaf, Hkind. simpl. by rewrite lookup_insert_ne.
  - by rewrite list_lookup_insert_ne.
Qed.

(** A call that throws has stored nothing, and has computed only when the
    error is the one of [WeakMap.prototype.set]. *)
Lemma call_error_frame st state args e :
  ret (call st state args) = inl e →
  (∀ p k, cachedAt (after (call st state args)) p k = cachedAt st p k) ∧
  invocations (call st state args) = (if decide (e = WeakMapKeyError) then 1 else 0).
Proof.
  unfold cachedSelector.
  destruct (negb _); [by intros [= <-]|].
  destruct (_ && _ && existsb _ _); [by intros [= <-]|].
  destruct (reduce _ _ _) as [r h'] eqn:Hwalk.
  pose proof (reduce_from_grows _ _ _ _ _ _ _ Hwalk) as Hgrows.
  assert (∀ p k, cachedAt (Store h' (cache st)) p k = cachedAt st p k) as Hsame.
  { intros p k. rewrite (grows_cachedAt _ _ (cache st) p k Hgrows). by destruct st. }
  destruct r as [e1|leaf].
  - simpl. intros [= ->]. split; [done|].
    by destruct (reduce_from_error_kind _ _ _ _ _ _ _ Hwalk) as [-> | ->].
  - destruct (h' !! leaf) as [o|] eqn:Hleaf; [|by intros [= <-]].
    destruct (map_has_str o _); [done|].
    destruct (negb _); [by intros [= <-]|].
    destruct (map_set_str o _ _) as [o'|] eqn:Hset; [done|].
    by intros [= <-].
Qed.

(** X1. Walking the dependents and walking them again: once a walk has
    ended at a leaf, the same walk on the resulting heap ends at that leaf
    and changes nothing (lookup after insertion); the leaf is the map at
    the key path of the dependents; and a walk allocates at most one map
    per dependent and removes none. *)
Theorem X1_walk_round_trip h root deps leaf h' :
  reduce h root deps = (inr leaf, h') →
  reduce h' root deps = (inr leaf, h') ∧
  nodeAt h' root (map weakMapKeyOf deps) = Some leaf ∧
  length h ≤ length h' ∧ length h' ≤ length h + length deps.
Proof.
  unfold reduce. intros Hwalk.
  destruct (reduce_from_nodeAt _ _ _ _ _ _ _ Hwalk) as [Hnode Hvalid].
  split; [by apply reduce_from_present|]. split; [done|]. split.
  - by destruct (reduce_from_grows _ _ _ _ _ _ _ Hwalk).
  - by eapply reduce_from_length.
Qed.

(** X2. Until the next clearCache a stored Result is never evicted,
    overwritten or moved: whatever calls follow, failing ones included, it
    stays under its key path and leaf key, and [cache] still names the same
    root. *)
Theorem X2_results_persist st ops p k v :
  Forall (λ o, o ≠ ClearCache) ops →
  cachedAt st p k = Some v →
  cachedAt (exec st ops) p k = Some v ∧ cache (exec st ops) = cache st.
Proof.
  intros Hops Hcached.
  destruct (exec_calls_le NODE_ENV getDependents selector getDependents_body
              selector_body options ops st Hops) as [Hle Hcache].
  split; [by eapply cachedAt_le | done].
Qed.

(** X3. A call that throws, whatever the error, leaves every stored Result
    as it was (levels may have been created, Results not); the computation
    function has been invoked exactly when the error is the TypeError of
    storing under a string key in a WeakMap. *)
Theorem X3_failed_call_stores_nothing st state args e :
  ret (call st state args) = inl e →
  (∀ p k, cachedAt (after (call st state args)) p k = cachedAt st p k) ∧
  cache (after (call st state args)) = cache st ∧
  (invocations (call st state args) = 1 ↔ e = WeakMapKeyError) ∧
  (invocations (call st state args) = 0 ↔ e ≠ WeakMapKeyError).
Proof.
  intros Herr. destruct (call_error_frame _ _ _ _ Herr) as [Hframe Hinv].
  split; [done|]. split; [by destruct (call_le NODE_ENV getDependents selector
    getDependents_body selector_body options st state args)|].
  rewrite Hinv. destruct (decide (e = WeakMapKeyError)); split; split; try done; lia.
Qed.

(** X4. A call writes at most one Result: on every store reached from a
    newly built selector, whatever is stored under another key path, or
    under the same key path and another leaf key, is the same before and
    after the call. *)
Theorem X4_call_writes_one_entry ops state args p k :
  (p, k) ≠ (pathOfCall state args, key args) →
  let st := exec initialStore ops in
  cachedAt (after (call st state args)) p k = cachedAt st p k.
Proof.
  intros Hne st.
  destruct (decide (k = key args)) as [->|Hk]; [|by apply call_frame_key].
  destruct (reachable_inv NODE_ENV getDependents selector getDependents_body
              selector_body options 0 ops) as (pathOf & Hinv & _).
  eapply call_frame; [done|]. congruence.
Qed.

(** Two dependents that pass the guard select the same branch only when
    they are the same object or both nullish. *)
Lemma weakMapKeyOf_sameIdentity a b :
  validKey a = true → validKey b = true →
  weakMapKeyOf a = weakMapKeyOf b → sameIdentity a b.
Proof.
  unfold sameIdentity, weakMapKeyOf, validKey, isReference.
  destruct a, b; simpl; intros Ha Hb Heq; try discriminate;
    try (injection Heq as ->); done.
Qed.

Lemma keys_sameIdentity d1 : ∀ d2,
  Forall (λ k, validKey k = true) d1 → Forall (λ k, validKey k = true) d2 →
  map weakMapKeyOf d1 = map weakMapKeyOf d2 → Forall2 sameIdentity d1 d2.
Proof.
  induction d1 as [|a d1 IH]; intros [|b d2] Hv1 Hv2 Heq; try done.
  apply Forall_cons in Hv1 as [Ha Hv1]. apply Forall_cons in Hv2 as [Hb Hv2].
  injection Heq as Hab Hrest. constructor; [by apply weakMapKeyOf_sameIdentity|].
  by apply IH.
Qed.

(** Where the Results of the heap after a call come from. *)
Lemma call_skeys st state args l o' k v :
  heap (after (call st state args)) !! l = Some o' → skeys o' !! k = Some v →
  (∃ o, heap st !! l = Some o ∧ skeys o !! k = Some v) ∨
  (nodeAt (heap (after (call st state args))) (cache st) (pathOfCall state args)
     = Some l ∧
   k = key args ∧ v = selector_body (dependentsOf state args) args ∧
   Forall (λ d, validKey d = true) (dependentsOf state args)).
Proof.
  unfold cachedSelector.
  destruct (negb _); [left; by eauto|].
  destruct (_ && _ && existsb _ _); [left; by eauto|].
  destruct (reduce _ _ _) as [r h'] eqn:Hwalk.
  pose proof (reduce_from_grows _ _ _ _ _ _ _ Hwalk) as (_ & Hold & Hnew & _).
  assert (∀ l o' k v, h' !! l = Some o' → skeys o' !! k = Some v →
            ∃ o, heap st !! l = Some o ∧ skeys o !! k = Some v) as Hh'.
  { intros l0 o0 k0 v0 Hl0 Hk0.
    destruct (decide (l0 < length (heap st))) as [Hlt|Hge].
    - destruct (lookup_lt_is_Some_2 _ _ Hlt) as [o Hl].
      destruct (Hold _ _ Hl) as (o1 & Hl1 & _ & Hs & _).
      assert (o1 = o0) as -> by congruence. exists o. by rewrite <- Hs.
    - by rewrite (Hnew _ _ Hl0) in Hk0 by lia. }
  destruct r as [e|leaf]; [left; by eauto|].
  destruct (reduce_from_nodeAt _ _ _ _ _ _ _ Hwalk) as [Hnode Hvalid].
  destruct (h' !! leaf) as [o|] eqn:Hleaf; [|left; by eauto].
  destruct (map_has_str o _); [left; by eauto|].
  destruct (negb _); [left; by eauto|].
  destruct (map_set_str o _ _) as [o1|] eqn:Hset; [|left; by eauto].
  simpl. apply map_set_str_Some in Hset as [Hkind ->].
  intros [(<- & <- & _)|[_ Hl]]%list_lookup_insert_Some; [|left; by eauto].
  simpl. intros [[<- <-]|[_ Hk]]%lookup_insert_Some; [|left; by eauto].
  right. split; [|done]. by rewrite (nodeAt_set_str _ _ _ _ _ _ Hleaf).
Qed.

(** Every Result in a reachable store was computed by a call of the
    history, for the key path under which it is stored. *)
Lemma exec_provenance ops :
  ∃ pathOf, store_inv pathOf (exec initialStore ops) ∧
    ∀ l o k v, heap (exec initialStore ops) !! l = Some o → skeys o !! k = Some v →
      ∃ state args, Call state args ∈ ops ∧
        pathOf l = pathOfCall state args ∧ k = key args ∧
        v = selector_body (dependentsOf state args) args ∧
        Forall (λ d, validKey d = true) (dependentsOf state args).
Proof.
  induction ops as [|o ops IH] using rev_ind.
  - exists (λ _, []). split; [apply initialStore_inv|].
    intros l o k v [_ <-]%list_lookup_singleton_Some. done.
  - destruct IH as (pathOf & Hinv & Hprov).
    unfold run in *. rewrite fold_left_app. simpl.
    set (st := fold_left _ ops initialStore) in *.
    destruct o as [state args|]; simpl.
    + destruct (call_inv NODE_ENV getDependents selector getDependents_body
                  selector_body options pathOf st state args 0 Hinv)
        as (pathOf' & Hinv' & Hagree & _ & _).
      exists pathOf'. split; [done|]. intros l o k v Hl Hk.
      destruct (call_skeys _ _ _ _ _ _ _ Hl Hk)
        as [(o0 & Hl0 & Hk0)|(Hnode & -> & -> & Hvalid)].
      * destruct (Hprov _ _ _ _ Hl0 Hk0) as (s & a & Hin & Hp & Hrest).
        exists s, a. split; [apply elem_of_app; by left|].
        split; [|done]. rewrite Hagree; [done | by eapply lookup_lt_Some].
      * exists state, args. split; [apply elem_of_app; right; by constructor|].
        split; [|done]. destruct Hinv' as (Hheap' & Hroot' & _).
        destruct (call_le NODE_ENV getDependents selector getDependents_body
                    selector_body options st state args) as [_ Hcache].
        rewrite <- Hcache in Hnode.
        rewrite (nodeAt_pathOf _ _ _ _ _ Hheap' Hnode), Hroot'. done.
    + destruct (clearCache_inv pathOf st 0 Hinv) as (pathOf' & Hinv' & Hagree & _ & _).
      exists pathOf'. split; [done|].
      intros l o k v [[Hlt Hl]|[_ <-]]%lookup_snoc_Some Hk; [|done].
      destruct (Hprov _ _ _ _ Hl Hk) as (s & a & Hin & Hp & Hrest).
      exists s, a. split; [apply elem_of_app; by left|].
      split; [|done]. by rewrite Hagree.
Qed.

Lemma cached_provenance ops p k v :
  cachedAt (exec initialStore ops) p k = Some v →
  ∃ state args, Call state args ∈ ops ∧
    pathOfCall state args = p ∧ key args = k ∧
    v = selector_body (dependentsOf state args) args ∧
    Forall (λ d, validKey d = true) (dependentsOf state args).
Proof.
  destruct (exec_provenance ops) as (pathOf & (Hheap & Hroot & _) & Hprov).
  unfold cachedAt.
  destruct (nodeAt _ _ p) as [l|] eqn:Hnode; [|done].
  destruct (heap (exec initialStore ops) !! l) as [o|] eqn:Hl; [|done].
  destruct (kind o); [done|]. intros Hk.
  destruct (Hprov _ _ _ _ Hl Hk) as (s & a & Hin & Hp & -> & Hv & Hvalid).
  exists s, a. split; [done|]. split; [|done].
  rewrite <- Hp, (nodeAt_pathOf _ _ _ _ _ Hheap Hnode), Hroot. done.
Qed.

(** X5. Every Result the cache holds was computed by the computation
    function in a call of the history: on a store reached from a newly
    built selector, a Result stored under a key path and a leaf key is the
    value of the computation function on the dependents and extra
    arguments of an earlier call with exactly that key path and leaf key
    (and valid dependents). The cache never invents or misfiles a value. *)
Theorem X5_cached_results_were_computed ops p k v :
  cachedAt (exec initialStore ops) p k = Some v →
  ∃ state args, Call state args ∈ ops ∧
    pathOfCall state args = p ∧ key args = k ∧
    v = selector_body (dependentsOf state args) args ∧
    Forall (λ d, validKey d = true) (dependentsOf state args).
Proof. apply cached_provenance. Qed.

(** X6. Memoization is transparent for a computation that depends on its
    dependents only through their identities and on the extra arguments
    only through the derived key: then every call that returns, on any
    store reached from a newly built selector, returns what the
    computation function gives for the dependents and arguments of that
    very call, cached or not. *)
Theorem X6_memoization_is_transparent ops state args v :
  (∀ s1 a1 s2 a2,
     Forall2 sameIdentity (dependentsOf s1 a1) (dependentsOf s2 a2) →
     key a1 = key a2 →
     selector_body (dependentsOf s1 a1) a1 = selector_body (dependentsOf s2 a2) a2) →
  ret (call (exec initialStore ops) state args) = inr v →
  v = selector_body (dependentsOf state args) args.
Proof.
  intros Hpure Hok.
  destruct (call_ok _ _ _ _ _ _ _ _ _ _ Hok) as (_ & _ & Hvalid & _).
  destruct (call_ok_cases _ _ _ _ _ _ _ _ _ _ Hok)
    as [[_ Hhit]|(_ & _ & _ & Hv)]; [|done].
  destruct (cached_provenance _ _ _ _ Hhit) as (s & a & _ & Hp & Hk & -> & Hvalid').
  apply Hpure; [|done]. by apply keys_sameIdentity.
Qed.

(** ** The cache against its memo table *)

Abbreviation tableCall :=
  (memoCall NODE_ENV getDependents selector getDependents_body selector_body
     options).
Abbreviation tableRun :=
  (memoRun NODE_ENV getDependents selector getDependents_body selector_body
     options).
Abbreviation asked :=
  (askedEntry NODE_ENV getDependents selector getDependents_body options).

Lemma forallb_validKey_false deps :
  Exists (λ k, validKey k = false) deps → forallb validKey deps = false.
Proof.
  induction 1 as [k deps Hk|k deps _ IH]; simpl.
  - by rewrite Hk.
  - rewrite IH. apply andb_false_r.
Qed.

(** What a table call leaves in the table. *)
Lemma memoCall_error (m : gmap (list objKey * string) value)
    (state : value) (args : list value) (e : error) :
  (tableCall m state args).1.1 = inl e → (tableCall m state args).2 = m.
Proof.
  unfold memoCall.
  destruct (negb (String.eqb (typeof getDependents) _)); [done|].
  destruct (rejectsArgs _ _ _); [done|].
  destruct (negb (forallb _ _)); [done|].
  destruct (m !! _); [done|]. by destruct (negb _).
Qed.

Lemma memoCall_ok (m : gmap (list objKey * string) value)
    (state : value) (args : list value) (v : value) :
  (tableCall m state args).1.1 = inr v →
  (tableCall m state args).2 !! (pathOfCall state args, key args) = Some v ∧
  ∀ entry, entry ≠ (pathOfCall state args, key args) →
           (tableCall m state args).2 !! entry = m !! entry.
Proof.
  unfold memoCall.
  destruct (negb (String.eqb (typeof getDependents) _)); [done|].
  destruct (rejectsArgs _ _ _); [done|].
  destruct (negb (forallb _ _)); [done|].
  destruct (m !! _) as [w|] eqn:Hm; simpl.
  - intros [= <-]. by split.
  - destruct (negb _); [done|]. simpl. intros [= <-]. split.
    + apply lookup_insert_eq.
    + intros entry Hne. by rewrite lookup_insert_ne.
Qed.

(** One call of the cached selector is one call against the table, when
    the store respects the depth discipline of the dependents length. *)
Lemma call_refines (pathOf : nat → list objKey) (n : nat) (st : store)
    (m : gmap (list objKey * string) value) (state : value) (args : list value) :
  store_inv pathOf st → shaped n pathOf (heap st) →
  length (dependentsOf state args) = n →
  represents st m →
  (ret (call st state args), invocations (call st state args))
  = (tableCall m state args).1 ∧
  represents (after (call st state args)) (tableCall m state args).2.
Proof.
  intros Hinv Hshaped Hlen Hrep.
  assert ((ret (call st state args), invocations (call st state args))
          = (tableCall m state args).1) as Hout.
  { pose proof Hinv as (Hheap & Hroot & oroot & Horoot & _).
    unfold cachedSelector, memoCall, rejectsArgs.
    destruct (negb (String.eqb (typeof getDependents) _)); [done|].
    destruct (_ && _ && existsb _ _); [done|].
    destruct (reduce_from_inv (getDependents_body state args) (heap st) (cache st)
                0 (getDependents_body state args) pathOf Hheap
                (lookup_lt_Some _ _ _ Horoot))
      as (r & h' & pathOf' & Hwalk & Hheap' & Hagree & Hgrows & Hsh & Hr).
    unfold reduce. rewrite Hwalk. destruct r as [e|leaf].
    - destruct Hr as [-> Hex]. by rewrite (forallb_validKey_false _ Hex).
    - destruct Hr as (Hvalid & Hlt & Hpath). rewrite (forallb_validKey _ Hvalid).
      simpl. destruct (lookup_lt_is_Some_2 _ _ Hlt) as [o Hleaf]. rewrite Hleaf.
      destruct (reduce_from_nodeAt _ _ _ _ _ _ _ Hwalk) as [Hnode _].
      assert (kind o = MapK) as Hkind.
      { rewrite Hlen in Hsh.
        destruct (Hsh (eq_trans (f_equal length Hroot) eq_refl)
                    ltac:(simpl; lia) Hshaped _ _ Hleaf) as [Hk _].
        rewrite Hk, Hpath, Hroot. simpl. rewrite length_map, Hlen.
        by rewrite Nat.ltb_irrefl. }
      assert (m !! (pathOfCall state args, key args) = skeys o !! key args) as ->.
      { rewrite <- Hrep.
        pose proof (grows_cachedAt _ _ (cache st) (pathOfCall state args)
                      (key args) Hgrows) as Hsame.
        replace (Store (heap st) (cache st)) with st in Hsame by (by destruct st).
        rewrite <- Hsame. unfold cachedAt. simpl. by rewrite Hnode, Hleaf, Hkind. }
      unfold map_has_str, map_get_str, map_set_str. rewrite Hkind.
      destruct (skeys o !! key args) as [w|]; simpl; [done|].
      by destruct (negb _). }
  split; [done|]. intros p k.
  destruct (ret (call st state args)) as [e|v] eqn:Hret.
  - destruct (call_error_frame _ _ _ _ Hret) as [Hframe _].
    rewrite Hframe, Hrep. symmetry. f_equal.
    eapply memoCall_error. by rewrite <- Hout.
  - destruct (memoCall_ok m state args v) as [Hentry Hother];
      [by rewrite <- Hout|].
    destruct (decide ((p, k) = (pathOfCall state args, key args))) as [[= -> ->]|Hne].
    + rewrite Hentry. by destruct (call_ok _ _ _ _ _ _ _ _ _ _ Hret) as (_ & _ & _ & ? & _).
    + rewrite (Hother _ Hne), <- Hrep.
      destruct (decide (k = key args)) as [->|Hk]; [|by apply call_frame_key].
      eapply call_frame; [done|]. congruence.
Qed.

Lemma exec_refines n ops :
  (∀ state args, length (dependentsOf state args) = n) → 1 ≤ n →
  represents (exec initialStore ops) (tableRun ∅ ops).
Proof.
  intros Hconst Hn. induction ops as [|o ops IH] using rev_ind.
  - intros p k. simpl. rewrite lookup_empty. by apply cachedAt_empty_root.
  - unfold run, memoRun in *. rewrite !fold_left_app. simpl.
    destruct o as [state args|]; simpl.
    + destruct (reachable_inv NODE_ENV getDependents selector getDependents_body
                  selector_body options n ops) as (pathOf & Hinv & Hshaped).
      by destruct (call_refines pathOf n _ _ state args Hinv (Hshaped Hconst Hn)
                     (Hconst _ _) IH).
    + intros p k. rewrite lookup_empty. apply cachedAt_empty_root.
      apply lookup_snoc_Some. by right.
Qed.

(** X7. With a dependents function of one constant length [n >= 1], the
    cached selector implements a memo table keyed by key path and leaf
    key: after any history the store holds exactly the entries of the
    table run over the same history ([clearCache] emptying it), and the
    next call returns or throws what the table call does, invokes the
    computation function as often, and leaves the store holding the table
    after that call. *)
Theorem X7_cache_refines_memo_table n ops state args :
  (∀ state' args', length (dependentsOf state' args') = n) → 1 ≤ n →
  let st := exec initialStore ops in
  let m := tableRun ∅ ops in
  represents st m ∧
  (ret (call st state args), invocations (call st state args))
  = (tableCall m state args).1 ∧
  represents (after (call st state args)) (tableCall m state args).2.
Proof.
  intros Hconst Hn st m.
  pose proof (exec_refines n ops Hconst Hn) as Hrep. split; [done|].
  destruct (reachable_inv NODE_ENV getDependents selector getDependents_body
              selector_body options n ops) as (pathOf & Hinv & Hshaped).
  exact (call_refines pathOf n _ _ state args Hinv (Hshaped Hconst Hn)
           (Hconst _ _) Hrep).
Qed.

(** X8. A call that respects the contract always returns: with callable
    functions, a dependents function of constant length [n >= 1], valid
    dependents and extra arguments that pass the development-mode check,
    a call on any store reached from a newly built selector returns the
    stored Result when there is one for its key path and leaf key (no
    invocation), and otherwise the freshly computed one (one invocation).
    It never throws. *)
Theorem X8_wellformed_call_returns n ops state args :
  (∀ state' args', length (dependentsOf state' args') = n) → 1 ≤ n →
  typeof getDependents = "function" → typeof selector = "function" →
  rejects args = false →
  Forall (λ d, validKey d = true) (dependentsOf state args) →
  let st := exec initialStore ops in
  let stored := cachedAt st (pathOfCall state args) (key args) in
  ret (call st state args)
  = inr (default (selector_body (dependentsOf state args) args) stored) ∧
  invocations (call st state args)
  = match stored with Some _ => 0 | None => 1 end.
Proof.
  intros Hconst Hn Hfn Hsel Hargs Hvalid st stored.
  destruct (reachable_inv NODE_ENV getDependents selector getDependents_body
              selector_body options n ops) as (pathOf & Hinv & Hshaped).
  destruct (call_refines pathOf n st (tableRun ∅ ops) state args Hinv
              (Hshaped Hconst Hn) (Hconst _ _) (exec_refines n ops Hconst Hn))
    as [Hout _].
  unfold memoCall in Hout.
  rewrite Hfn, Hsel, Hargs, (forallb_validKey _ Hvalid) in Hout. simpl in Hout.
  rewrite <- (exec_refines n ops Hconst Hn) in Hout. fold st stored in Hout.
  destruct stored; by injection Hout.
Qed.

(** ** Counting computations *)

Lemma memoCall_count (m : gmap (list objKey * string) value)
    (state : value) (args : list value) :
  (tableCall m state args).1.2 + size m = size (tableCall m state args).2.
Proof.
  unfold memoCall.
  destruct (negb (String.eqb (typeof getDependents) _)); [done|].
  destruct (rejectsArgs _ _ _); [done|].
  destruct (negb (forallb _ _)); [done|].
  destruct (m !! _) as [w|] eqn:Hm; [done|].
  destruct (negb _); [done|]. simpl. by rewrite map_size_insert_None.
Qed.

Lemma memoCall_dom (m : gmap (list objKey * string) value)
    (state : value) (args : list value) :
  dom (tableCall m state args).2
  = dom m ∪ match asked (Call state args) with
            | Some entry => {[entry]}
            | None => ∅
            end.
Proof.
  unfold memoCall, askedEntry.
  destruct (negb (String.eqb (typeof getDependents) _)); simpl; [set_solver|].
  destruct (rejectsArgs _ _ _); simpl; [set_solver|].
  destruct (negb (forallb _ _)); simpl; [set_solver|].
  destruct (m !! _) as [w|] eqn:Hm.
  - apply elem_of_dom_2 in Hm. destruct (negb _); simpl; set_solver.
  - destruct (negb _); simpl; [set_solver|]. rewrite dom_insert_L. set_solver.
Qed.

Lemma tableRun_dom ops : ∀ m : gmap (list objKey * string) value,
  Forall (λ o, o ≠ ClearCache) ops →
  dom (tableRun m ops) = dom m ∪ list_to_set (omap asked ops).
Proof.
  induction ops as [|o ops IH]; intros m Hops; [simpl; set_solver|].
  apply Forall_cons in Hops as [Ho Hops]. destruct o as [state args|]; [|done].
  assert (omap asked (Call state args :: ops)
          = match asked (Call state args) with
            | Some entry => entry :: omap asked ops
            | None => omap asked ops
            end) as -> by done.
  unfold memoRun in *. cbn [fold_left memoStep].
  rewrite (IH _ Hops), memoCall_dom.
  destruct (asked (Call state args)); [rewrite list_to_set_cons|]; set_solver.
Qed.

Lemma total_refines n ops : ∀ (st : store) (m : gmap (list objKey * string) value),
  (∀ state args, length (dependentsOf state args) = n) →
  (∃ pathOf, store_inv pathOf st ∧ shaped n pathOf (heap st)) →
  represents st m →
  Forall (λ o, o ≠ ClearCache) ops →
  totalInvocations NODE_ENV getDependents selector getDependents_body
    selector_body options st ops + size m
  = size (tableRun m ops).
Proof.
  induction ops as [|o ops IH]; intros st m Hconst (pathOf & Hinv & Hshaped) Hrep Hops;
    simpl; [done|].
  apply Forall_cons in Hops as [Ho Hops]. destruct o as [state args|]; [|done].
  destruct (call_refines pathOf n st m state args Hinv Hshaped (Hconst _ _) Hrep)
    as [Hout Hrep'].
  destruct (call_inv NODE_ENV getDependents selector getDependents_body
              selector_body options pathOf st state args n Hinv)
    as (pathOf' & Hinv' & _ & _ & Hshaped').
  unfold memoRun in *. simpl.
  rewrite <- (IH _ _ Hconst (ex_intro _ pathOf' (conj Hinv' (Hshaped' (Hconst _ _) Hshaped)))
                Hrep' Hops).
  rewrite <- (memoCall_count m state args).
  replace (invocations (call st state args)) with (tableCall m state args).1.2
    by (by rewrite <- Hout).
  simpl. lia.
Qed.

(** X9. One computation per entry: with a dependents function of constant
    length [n >= 1], over any history of calls without clearCache the
    computation function is invoked exactly as many times as there are
    distinct pairs of key path and leaf key among the calls that pass the
    guards, however often and in whatever order those calls are made. *)
Theorem X9_one_computation_per_entry n ops :
  (∀ state args, length (dependentsOf state args) = n) → 1 ≤ n →
  Forall (λ o, o ≠ ClearCache) ops →
  totalInvocations NODE_ENV getDependents selector getDependents_body
    selector_body options initialStore ops
  = size (list_to_set (omap asked ops) : gset (list objKey * string)).
Proof.
  intros Hconst Hn Hops.
  pose proof (total_refines n ops initialStore ∅ Hconst) as Htotal.
  rewrite map_size_empty, Nat.add_0_r in Htotal. rewrite Htotal; [|by eauto using initialStore_inv, initialStore_shaped| |done].
  - rewrite <- size_dom, (tableRun_dom _ _ Hops), dom_empty_L. f_equal. set_solver.
  - intros p k. rewrite lookup_empty. by apply cachedAt_empty_root.
Qed.

(** X10. The default key derivation neither escapes its separator nor
    records types: an extra argument whose string form is the comma-join
    of a non-empty run of arguments derives, at any position, the same key
    as that run. So a non-empty array keys like its spread elements, a
    string with a comma like its two halves, a number like the string of
    its ToString, which below [2^53] in magnitude is its plain decimal
    numeral. *)
Theorem X10_default_key_collisions pre x ys post :
  ys ≠ [] → joinElem x = defaultGetCacheKey ys →
  defaultGetCacheKey (pre ++ x :: post) = defaultGetCacheKey (pre ++ ys ++ post) ∧
  (∀ r, defaultGetCacheKey (pre ++ VArray r ys :: post)
        = defaultGetCacheKey (pre ++ ys ++ post)) ∧
  (∀ a b, defaultGetCacheKey (pre ++ VStr (a +:+ "," +:+ b) :: post)
          = defaultGetCacheKey (pre ++ [VStr a; VStr b] ++ post)) ∧
  (∀ n, defaultGetCacheKey (pre ++ VNum n :: post)
        = defaultGetCacheKey (pre ++ [VStr (numToString n)] ++ post)) ∧
  (∀ n, (Z.abs n < 2 ^ 53)%Z →
        defaultGetCacheKey (pre ++ VNum n :: post)
        = defaultGetCacheKey (pre ++ [VStr (decimal n)] ++ post)).
Proof.
  intros Hys Hx. unfold defaultGetCacheKey in *.
  split; [by apply join_splice|]. split; [|split; [|split]].
  - intros r. by apply join_splice.
  - intros a b. by apply join_splice.
  - intros n. by apply join_splice.
  - intros n Hn. apply join_splice; [done|]. simpl.
    by rewrite numToString_safe.
Qed.

(** X11. A computation function that is not callable (construction lets
    it through in production mode only) never yields anything: on every
    store reached from the new selector no call returns a value and no
    Result is stored. A dependents function that is not callable makes
    every call throw before it touches the store. *)
Theorem X11_noncallable_functions ops state args :
  (typeof selector ≠ "function" →
   treeSelect (Some "production") getDependents selector = inr initialStore ∧
   (∀ v, ret (call (exec initialStore ops) state args) ≠ inr v) ∧
   (∀ p k, cachedAt (exec initialStore ops) p k = None)) ∧
  (typeof getDependents ≠ "function" →
   ∀ st, call st state args = Outcome (inl NotCallable) 0 st).
Proof.
  split.
  - intros Hsel. split; [done|]. split.
    + intros v Hok. apply Hsel. by eapply reachable_ok_callable.
    + intros p k. unfold cachedAt.
      destruct (nodeAt _ _ p) as [l|]; [|done].
      destruct (heap (exec initialStore ops) !! l) as [o|] eqn:Hl; [|done].
      destruct (kind o); [done|].
      destruct (skeys o !! k) as [v|] eqn:Hk; [|done]. destruct Hsel.
      eapply (exec_results_callable NODE_ENV getDependents selector
                getDependents_body selector_body options ops initialStore);
        [|done|].
      * intros l0 o0 Hl0%list_lookup_singleton_Some. by destruct Hl0 as [_ <-].
      * intros Hempty. by rewrite Hempty in Hk.
  - intros Hfn st. unfold cachedSelector.
    destruct (String.eqb_spec (typeof getDependents) "function"); done.
Qed.

End Extras.

(** X12. Two walks, one after the other on a store reached from a newly
    built selector, end at the same leaf table exactly when the two
    dependents sequences have the same length and agree at every position
    in identity, [null] and [undefined] counting as one. *)
Theorem X12_same_leaf_iff_same_identities NODE_ENV getDependents selector
    getDependents_body selector_body options ops dA dB leafA hA leafB hB :
  let st := run NODE_ENV getDependents selector getDependents_body selector_body
              options initialStore ops in
  reduce (heap st) (cache st) dA = (inr leafA, hA) →
  reduce hA (cache st) dB = (inr leafB, hB) →
  (leafA = leafB ↔ Forall2 sameIdentity dA dB).
Proof.
  intros st HwalkA HwalkB. unfold reduce in *.
  destruct (reachable_inv NODE_ENV getDependents selector getDependents_body
              selector_body options 0 ops)
    as (pathOf & (Hheap & Hroot & oroot & Horoot & _) & _).
  fold st in Hheap, Hroot, Horoot.
  destruct (reduce_from_inv dA (heap st) (cache st) 0 dA pathOf Hheap
              (lookup_lt_Some _ _ _ Horoot))
    as (rA & hA' & pathOfA & HwA & HheapA & HagreeA & HgrowsA & _ & HrA).
  rewrite HwalkA in HwA. injection HwA as <- <-.
  destruct HrA as (HvalidA & HltA & HlabelA).
  assert (cache st < length hA) as HrootA
    by (destruct HgrowsA as [Hlen _]; apply lookup_lt_Some in Horoot; lia).
  assert (pathOfA (cache st) = []) as HrootA'
    by (rewrite HagreeA; [done | by eapply lookup_lt_Some]).
  destruct (reduce_from_inv dB hA (cache st) 0 dB pathOfA HheapA HrootA)
    as (rB & hB' & pathOfB & HwB & _ & HagreeB & _ & _ & HrB).
  rewrite HwalkB in HwB. injection HwB as <- <-.
  destruct HrB as (HvalidB & _ & HlabelB).
  rewrite Hroot in HlabelA. rewrite HrootA' in HlabelB. simpl in *.
  split.
  - intros Heq. apply keys_sameIdentity; [done..|].
    rewrite <- HlabelA, <- HlabelB, <- Heq. symmetry. by apply HagreeB.
  - intros Hsame. destruct (reduce_from_nodeAt _ _ _ _ _ _ _ HwalkA) as [Hnode _].
    rewrite (sameIdentity_keys _ _ Hsame) in Hnode.
    rewrite (reduce_from_present dB hA (cache st) 0 dB leafA HvalidB Hnode) in HwalkB.
    congruence.
Qed.

Section Histories.

Variable NODE_ENV : option string.
Variable getDependents selector : value.
Variable getDependents_body : value → list value → list value.
Variable selector_body : list value → list value → value.
Variable options : Options.

Abbreviation call :=
  (cachedSelector NODE_ENV getDependents selector
     getDependents_body selector_body options).
Abbreviation exec :=
  (run NODE_ENV getDependents selector
     getDependents_body selector_body options).
Abbreviation key := (activeGetCacheKey options).
Abbreviation rejects := (rejectsArgs NODE_ENV options).
Abbreviation dependentsOf state args := (getDependents_body state args).
Abbreviation pathOfCall state args :=
  (map weakMapKeyOf (getDependents_body state args)).
Abbreviation tableCall :=
  (memoCall NODE_ENV getDependents selector getDependents_body selector_body
     options).
Abbreviation tableRun :=
  (memoRun NODE_ENV getDependents selector getDependents_body selector_body
     options).

(** After any history, what a call does is read off the table of that
    history. *)
Lemma reachable_outcome n ops state args :
  (∀ state' args', length (dependentsOf state' args') = n) → 1 ≤ n →
  (ret (call (exec initialStore ops) state args),
   invocations (call (exec initialStore ops) state args))
  = (tableCall (tableRun ∅ ops) state args).1.
Proof.
  intros Hconst Hn.
  destruct (reachable_inv NODE_ENV getDependents selector getDependents_body
              selector_body options n ops) as (pathOf & Hinv & Hshaped).
  by destruct (call_refines NODE_ENV getDependents selector getDependents_body
                 selector_body options pathOf n _ _ state args Hinv
                 (Hshaped Hconst Hn) (Hconst _ _)
                 (exec_refines NODE_ENV getDependents selector getDependents_body
                    selector_body options n ops Hconst Hn)).
Qed.

(** X13. On an empty cache, that of a newly built selector or the one
    left by clearCache, the outcome of a call is fixed by the guards in
    this order: a dependents function that is not callable, the
    development-mode argument check, the first invalid dependent, a
    computation function that is not callable (each throwing before any
    computation), then an empty dependents sequence (one computation, then
    the WeakMap TypeError); otherwise the call computes once and returns
    the Result. *)
Theorem X13_outcome_on_empty_cache st0 state args :
  (ret (call initialStore state args), invocations (call initialStore state args))
  = emptyCacheOutcome NODE_ENV getDependents selector getDependents_body
      selector_body options state args ∧
  (ret (call (snd (clearCache st0)) state args),
   invocations (call (snd (clearCache st0)) state args))
  = emptyCacheOutcome NODE_ENV getDependents selector getDependents_body
      selector_body options state args.
Proof.
  split; apply call_on_empty_root; [done|].
  simpl. apply lookup_snoc_Some. by right.
Qed.

(** X14. The errors of a call and their causes, on any store reached from
    a newly built selector: "not a function" only when one of the two
    functions is not callable, the CacheKeyError only when the argument
    check rejects, InvalidDependentKey only when some dependent is a
    primitive other than [null] and [undefined], the WeakMap TypeError only
    when the walk ended in a WeakMap. No call throws the construction
    error, and no map address of the heap ever dangles. *)
Theorem X14_error_causes ops state args e :
  let st := exec initialStore ops in
  ret (call st state args) = inl e →
  e ≠ DanglingAddress ∧ e ≠ InvalidArgument ∧
  (e = NotCallable →
   typeof getDependents ≠ "function" ∨ typeof selector ≠ "function") ∧
  (e = CacheKeyError → rejects args = true) ∧
  (e = InvalidDependentKey →
   Exists (λ d, validKey d = false) (dependentsOf state args)) ∧
  (e = WeakMapKeyError →
   ∃ leaf o,
     nodeAt (heap (after (call st state args))) (cache st) (pathOfCall state args)
       = Some leaf ∧
     heap (after (call st state args)) !! leaf = Some o ∧ kind o = WeakMapK).
Proof.
  intros st.
  destruct (reachable_inv NODE_ENV getDependents selector getDependents_body
              selector_body options 0 ops)
    as (pathOf & (Hheap & Hroot & oroot & Horoot & _) & _).
  fold st in Hheap, Hroot, Horoot. unfold cachedSelector, rejectsArgs.
  destruct (String.eqb_spec (typeof getDependents) "function") as [Hfn|Hfn]; simpl.
  2:{ intros [= <-]. split_and!; try done. intros _. by left. }
  destruct (_ && _ && existsb _ _) eqn:Hargs.
  { intros [= <-]. split_and!; done. }
  destruct (reduce_from_inv (getDependents_body state args) (heap st) (cache st)
              0 (getDependents_body state args) pathOf Hheap
              (lookup_lt_Some _ _ _ Horoot))
    as (r & h' & pathOf' & Hwalk & _ & _ & _ & _ & Hr).
  unfold reduce. rewrite Hwalk. destruct r as [e1|leaf].
  { destruct Hr as [-> Hex]. intros [= <-]. split_and!; done. }
  destruct Hr as (_ & Hlt & _).
  destruct (lookup_lt_is_Some_2 _ _ Hlt) as [o Hleaf]. rewrite Hleaf.
  destruct (reduce_from_nodeAt _ _ _ _ _ _ _ Hwalk) as [Hnode _].
  destruct (map_has_str o _); [done|].
  destruct (String.eqb_spec (typeof selector) "function") as [Hsel|Hsel]; simpl.
  2:{ intros [= <-]. split_and!; try done. intros _. by right. }
  unfold map_set_str. destruct (kind o) eqn:Hkind; [|done].
  intros [= <-]. split_and!; try done. intros _. by exists leaf, o.
Qed.

(** X15. clearCache restarts the selector: with a dependents function of
    constant length [n >= 1], after any history followed by clearCache and
    any further history, a call returns or throws the same, and computes
    as often, as after the further history alone on a newly built
    selector. *)
Theorem X15_clearCache_restarts n ops ops' state args :
  (∀ state' args', length (dependentsOf state' args') = n) → 1 ≤ n →
  let cleared := exec (snd (clearCache (exec initialStore ops))) ops' in
  let fresh := exec initialStore ops' in
  ret (call cleared state args) = ret (call fresh state args) ∧
  invocations (call cleared state args) = invocations (call fresh state args).
Proof.
  intros Hconst Hn cleared fresh.
  assert (cleared = exec initialStore (ops ++ ClearCache :: ops')) as ->
    by (unfold cleared, run; by rewrite fold_left_app).
  pose proof (reachable_outcome n (ops ++ ClearCache :: ops') state args Hconst Hn)
    as H1.
  pose proof (reachable_outcome n ops' state args Hconst Hn) as H2.
  assert (tableRun ∅ (ops ++ ClearCache :: ops') = tableRun ∅ ops') as Htable
    by (unfold memoRun; by rewrite fold_left_app).
  rewrite Htable, <- H2 in H1. by injection H1.
Qed.

(** X16. A call that throws is harmless for what follows: with a
    dependents function of constant length [n >= 1], dropping a failing
    call from a history changes neither what any later call returns or
    throws nor how often it computes. *)
Theorem X16_failed_calls_are_harmless n ops1 badState badArgs e ops2 state args :
  (∀ state' args', length (dependentsOf state' args') = n) → 1 ≤ n →
  ret (call (exec initialStore ops1) badState badArgs) = inl e →
  let withCall := exec initialStore (ops1 ++ Call badState badArgs :: ops2) in
  let without := exec initialStore (ops1 ++ ops2) in
  ret (call withCall state args) = ret (call without state args) ∧
  invocations (call withCall state args) = invocations (call without state args).
Proof.
  intros Hconst Hn Hbad withCall without.
  pose proof (reachable_outcome n (ops1 ++ Call badState badArgs :: ops2)
                state args Hconst Hn) as H1.
  pose proof (reachable_outcome n (ops1 ++ ops2) state args Hconst Hn) as H2.
  assert (tableRun ∅ (ops1 ++ Call badState badArgs :: ops2)
          = tableRun ∅ (ops1 ++ ops2)) as Htable.
  { unfold memoRun. rewrite !fold_left_app. simpl. f_equal.
    eapply memoCall_error.
    pose proof (reachable_outcome n ops1 badState badArgs Hconst Hn) as Hout.
    unfold memoRun in Hout. rewrite <- Hout. done. }
  rewrite Htable, <- H2 in H1. by injection H1.
Qed.

(** ** Pure computations *)

(** The values of the table of a history come from calls of the history. *)
Lemma tableRun_values n ops p k v :
  (∀ state' args', length (dependentsOf state' args') = n) → 1 ≤ n →
  tableRun ∅ ops !! (p, k) = Some v →
  ∃ state args, Call state args ∈ ops ∧
    pathOfCall state args = p ∧ key args = k ∧
    v = selector_body (dependentsOf state args) args ∧
    Forall (λ d, validKey d = true) (dependentsOf state args).
Proof.
  intros Hconst Hn Hv.
  rewrite <- (exec_refines NODE_ENV getDependents selector getDependents_body
                selector_body options n ops Hconst Hn) in Hv.
  by apply cached_provenance in Hv.
Qed.

(** With a pure computation the table of a history is a function of the
    set of entries asked for. *)
Lemma tableRun_pure n ops1 ops2 :
  (∀ state' args', length (dependentsOf state' args') = n) → 1 ≤ n →
  (∀ s1 a1 s2 a2,
     Forall2 sameIdentity (dependentsOf s1 a1) (dependentsOf s2 a2) →
     key a1 = key a2 →
     selector_body (dependentsOf s1 a1) a1 = selector_body (dependentsOf s2 a2) a2) →
  Forall (λ o, o ≠ ClearCache) ops1 → Forall (λ o, o ≠ ClearCache) ops2 →
  (list_to_set (omap (askedEntry NODE_ENV getDependents selector
                        getDependents_body options) ops1)
     : gset (list objKey * string))
  = list_to_set (omap (askedEntry NODE_ENV getDependents selector
                         getDependents_body options) ops2) →
  tableRun ∅ ops1 = tableRun ∅ ops2.
Proof.
  intros Hconst Hn Hpure Hops1 Hops2 Hasked.
  assert (dom (tableRun ∅ ops1) = dom (tableRun ∅ ops2)) as Hdom.
  { rewrite (tableRun_dom NODE_ENV getDependents selector getDependents_body
               selector_body options ops1 ∅ Hops1).
    rewrite (tableRun_dom NODE_ENV getDependents selector getDependents_body
               selector_body options ops2 ∅ Hops2).
    by rewrite Hasked. }
  apply map_eq. intros [p k].
  destruct (tableRun ∅ ops1 !! (p, k)) as [v1|] eqn:H1.
  - assert (is_Some (tableRun ∅ ops2 !! (p, k))) as [v2 H2].
    { apply elem_of_dom. rewrite <- Hdom. by apply elem_of_dom_2 in H1. }
    rewrite H2. f_equal.
    destruct (tableRun_values n _ _ _ _ Hconst Hn H1)
      as (s1 & a1 & _ & Hp1 & Hk1 & -> & Hvalid1).
    destruct (tableRun_values n _ _ _ _ Hconst Hn H2)
      as (s2 & a2 & _ & Hp2 & Hk2 & -> & Hvalid2).
    apply Hpure; [|congruence].
    apply keys_sameIdentity; [done..|congruence].
  - symmetry. apply not_elem_of_dom. rewrite <- Hdom. by apply not_elem_of_dom.
Qed.

(** X17. History independence for a pure computation: with a dependents
    function of constant length [n >= 1] and a computation that depends on
    its dependents only through their identities and on the arguments only
    through the derived key, what a call returns or throws, and whether it
    computes, depends only on the set of entries asked for before, not on
    the order of the earlier calls nor on how often they were repeated. *)
Theorem X17_history_independence n ops1 ops2 state args :
  (∀ state' args', length (dependentsOf state' args') = n) → 1 ≤ n →
  (∀ s1 a1 s2 a2,
     Forall2 sameIdentity (dependentsOf s1 a1) (dependentsOf s2 a2) →
     key a1 = key a2 →
     selector_body (dependentsOf s1 a1) a1 = selector_body (dependentsOf s2 a2) a2) →
  Forall (λ o, o ≠ ClearCache) ops1 → Forall (λ o, o ≠ ClearCache) ops2 →
  (list_to_set (omap (askedEntry NODE_ENV getDependents selector
                        getDependents_body options) ops1)
     : gset (list objKey * string))
  = list_to_set (omap (askedEntry NODE_ENV getDependents selector
                         getDependents_body options) ops2) →
  ret (call (exec initialStore ops1) state args)
  = ret (call (exec initialStore ops2) state args) ∧
  invocations (call (exec initialStore ops1) state args)
  = invocations (call (exec initialStore ops2) state args).
Proof.
  intros Hconst Hn Hpure Hops1 Hops2 Hasked.
  pose proof (reachable_outcome n ops1 state args Hconst Hn) as H1.
  pose proof (reachable_outcome n ops2 state args Hconst Hn) as H2.
  rewrite (tableRun_pure n ops1 ops2 Hconst Hn Hpure Hops1 Hops2 Hasked), <- H2 in H1.
  by injection H1.
Qed.

(** X18. The cached selector computes the function it wraps: with callable
    functions, a dependents function of constant length [n >= 1] and a
    computation that depends on its dependents only through their
    identities and on the arguments only through the derived key, every
    call with valid dependents and arguments that pass the development-mode
    check returns, after any history, exactly the value of the computation
    function on its own dependents and arguments. *)
Theorem X18_cached_selector_is_the_selector n ops state args :
  (∀ state' args', length (dependentsOf state' args') = n) → 1 ≤ n →
  (∀ s1 a1 s2 a2,
     Forall2 sameIdentity (dependentsOf s1 a1) (dependentsOf s2 a2) →
     key a1 = key a2 →
     selector_body (dependentsOf s1 a1) a1 = selector_body (dependentsOf s2 a2) a2) →
  isFunction getDependents = true → isFunction selector = true →
  rejects args = false →
  Forall (λ d, validKey d = true) (dependentsOf state args) →
  ret (call (exec initialStore ops) state args)
  = inr (selector_body (dependentsOf state args) args).
Proof.
  intros Hconst Hn Hpure Hfn%isFunction_typeof Hsel%isFunction_typeof Hargs Hvalid.
  pose proof (reachable_outcome n ops state args Hconst Hn) as Hout.
  unfold memoCall in Hout.
  rewrite Hfn, Hsel, Hargs, (forallb_validKey _ Hvalid) in Hout. simpl in Hout.
  destruct (tableRun ∅ ops !! _) as [v|] eqn:Hv; injection Hout as -> _; [|done].
  destruct (tableRun_values n _ _ _ _ Hconst Hn Hv)
    as (s & a & _ & Hp & Hk & -> & Hvalid').
  f_equal. apply Hpure; [|done]. by apply keys_sameIdentity.
Qed.

End Histories.

(** X19. Which values may be dependents: the guard of
    [insertDependentKey] throws, whatever the heap and the position,
    exactly for the values that are neither [null] nor [undefined] and
    pass neither [isObject] nor [isFunction]; a value that the argument
    check flags ([isObject]) is therefore always a valid dependent, and so
    is any function. *)
Theorem X19_dependent_guard h m key i arr :
  (fst (insertDependentKey h m key i arr) = inl InvalidDependentKey ↔
   isNullish key = false ∧ isObject key = false ∧ isFunction key = false) ∧
  (isObject key = true ∨ isFunction key = true → validKey key = true) ∧
  isObject key && isFunction key = false.
Proof.
  split; [|split].
  - destruct (validKey key) eqn:Hvalid.
    + rewrite insertDependentKey_valid by done. split.
      * destruct (h !! m) as [o|]; [|done]. by destruct (okeys o !! _).
      * intros (Hn & Ho & Hf). revert Hvalid Hn Ho Hf.
        unfold validKey, isReference, isObject, isFunction.
        by destruct key.
    + rewrite insertDependentKey_invalid by done. split; [|done]. intros _.
      revert Hvalid. unfold validKey, isReference, isObject, isFunction.
      destruct key; simpl; rewrite ?andb_false_r; done.
  - unfold validKey, isReference, isObject, isFunction.
    destruct key; simpl; rewrite ?andb_false_r; intros [|]; done.
  - unfold isObject, isFunction. destruct key; simpl; rewrite ?andb_false_r; done.
Qed.

(** ** Closed instances of the further properties *)

Abbreviation pairCall :=
  (cachedSelector None sampleFn sampleFn pairDependents sampleSelector
     defaultOptions).
Abbreviation pairRun :=
  (run None sampleFn sampleFn pairDependents sampleSelector defaultOptions).

Lemma X1_walk_round_trip_witness :
  let h' := snd (reduce (heap initialStore) 0 [VObject 1; VNull]) in
  reduce h' 0 [VObject 1; VNull] = (inr 2, h') ∧
  nodeAt h' 0 (map weakMapKeyOf [VObject 1; VNull]) = Some 2 ∧
  length (heap initialStore) ≤ length h' ∧
  length h' ≤ length (heap initialStore) + length [VObject 1; VNull].
Proof.
  apply (X1_walk_round_trip (heap initialStore) 0 [VObject 1; VNull] 2).
  reflexivity.
Defined.

Lemma X2_results_persist_witness :
  let st := after (devCall initialStore (VArray 0 [VObject 1]) [VStr "x"]) in
  let st' := run None sampleFn sampleFn sampleDependents sampleSelector
               defaultOptions st
               [Call (VArray 0 [VObject 2]) [VStr "y"]; Call (VArray 0 [VNum 5]) []] in
  cachedAt st' [ObjRef 1] "x" = Some (VStr "1:x") ∧ cache st' = cache st.
Proof.
  apply (X2_results_persist None sampleFn sampleFn sampleDependents sampleSelector
           defaultOptions).
  - repeat constructor; discriminate.
  - reflexivity.
Defined.

Lemma X3_failed_call_stores_nothing_witness :
  let st := after (devCall initialStore (VArray 0 [VObject 1; VObject 2]) []) in
  let c := devCall st (VArray 0 [VObject 1; VObject 3; VNum 5]) [] in
  (∀ p k, cachedAt (after c) p k = cachedAt st p k) ∧
  cache (after c) = cache st ∧
  (invocations c = 1 ↔ InvalidDependentKey = WeakMapKeyError) ∧
  (invocations c = 0 ↔ InvalidDependentKey ≠ WeakMapKeyError).
Proof.
  apply (X3_failed_call_stores_nothing None sampleFn sampleFn sampleDependents
           sampleSelector defaultOptions).
  reflexivity.
Defined.

Lemma X4_call_writes_one_entry_witness :
  let st := run None sampleFn sampleFn sampleDependents sampleSelector
              defaultOptions initialStore [Call (VArray 0 [VObject 1]) [VStr "y"]] in
  cachedAt (after (devCall st (VArray 0 [VObject 1]) [VStr "x"])) [ObjRef 1] "y"
  = cachedAt st [ObjRef 1] "y".
Proof.
  apply (X4_call_writes_one_entry None sampleFn sampleFn sampleDependents
           sampleSelector defaultOptions [Call (VArray 0 [VObject 1]) [VStr "y"]]
           (VArray 0 [VObject 1]) [VStr "x"] [ObjRef 1] "y").
  vm_compute. intros [=].
Defined.

Lemma X5_cached_results_were_computed_witness :
  ∃ state args,
    Call state args ∈ [Call (VArray 0 [VObject 1]) [VStr "y"]] ∧
    map weakMapKeyOf (sampleDependents state args) = [ObjRef 1] ∧
    activeGetCacheKey defaultOptions args = "y" ∧
    VStr "1:y" = sampleSelector (sampleDependents state args) args ∧
    Forall (λ d, validKey d = true) (sampleDependents state args).
Proof.
  apply (X5_cached_results_were_computed None sampleFn sampleFn sampleDependents
           sampleSelector defaultOptions [Call (VArray 0 [VObject 1]) [VStr "y"]]
           [ObjRef 1] "y" (VStr "1:y")).
  reflexivity.
Defined.

(** The sample computation reads its dependents through their number and
    its arguments through their join only. *)
Lemma sampleSelector_pure s1 a1 s2 a2 :
  Forall2 sameIdentity (sampleDependents s1 a1) (sampleDependents s2 a2) →
  activeGetCacheKey defaultOptions a1 = activeGetCacheKey defaultOptions a2 →
  sampleSelector (sampleDependents s1 a1) a1
  = sampleSelector (sampleDependents s2 a2) a2.
Proof.
  intros Hsame Hkey. unfold sampleSelector.
  rewrite (Forall2_length _ _ _ Hsame).
  unfold activeGetCacheKey, defaultGetCacheKey in Hkey. simpl in Hkey.
  by rewrite Hkey.
Qed.

Lemma X6_memoization_is_transparent_witness :
  VStr "2:a,b"
  = sampleSelector (sampleDependents (VArray 5 [VObject 1; VUndefined]) [VStr "a,b"])
      [VStr "a,b"].
Proof.
  apply (X6_memoization_is_transparent None sampleFn sampleFn sampleDependents
           sampleSelector defaultOptions
           [Call (VArray 0 [VObject 1; VNull]) [VStr "a"; VStr "b"]]
           (VArray 5 [VObject 1; VUndefined]) [VStr "a,b"] (VStr "2:a,b")).
  - apply sampleSelector_pure.
  - reflexivity.
Defined.

Lemma X7_cache_refines_memo_table_witness :
  let ops := [Call (VObject 1) [VStr "a"]; Call (VNum 5) []; ClearCache;
              Call (VObject 2) []] in
  let st := pairRun initialStore ops in
  let m := memoRun None sampleFn sampleFn pairDependents sampleSelector
             defaultOptions ∅ ops in
  represents st m ∧
  (ret (pairCall st (VObject 2) []), invocations (pairCall st (VObject 2) []))
  = (memoCall None sampleFn sampleFn pairDependents sampleSelector
       defaultOptions m (VObject 2) []).1 ∧
  represents (after (pairCall st (VObject 2) []))
    (memoCall None sampleFn sampleFn pairDependents sampleSelector
       defaultOptions m (VObject 2) []).2.
Proof.
  apply (X7_cache_refines_memo_table None sampleFn sampleFn pairDependents
           sampleSelector defaultOptions 2); [reflexivity | lia].
Defined.

Lemma X8_wellformed_call_returns_witness :
  let st := pairRun initialStore [Call (VObject 1) [VStr "a"]; Call (VNum 5) []] in
  let stored := cachedAt st (map weakMapKeyOf (pairDependents (VObject 1) [VStr "a"]))
                  (activeGetCacheKey defaultOptions [VStr "a"]) in
  ret (pairCall st (VObject 1) [VStr "a"])
  = inr (default (sampleSelector (pairDependents (VObject 1) [VStr "a"]) [VStr "a"])
           stored) ∧
  invocations (pairCall st (VObject 1) [VStr "a"])
  = match stored with Some _ => 0 | None => 1 end.
Proof.
  apply (X8_wellformed_call_returns None sampleFn sampleFn pairDependents
           sampleSelector defaultOptions 2);
    [reflexivity | lia | reflexivity | reflexivity | reflexivity |].
  repeat constructor.
Defined.

Lemma X9_one_computation_per_entry_witness :
  let ops := [Call (VObject 1) []; Call (VObject 2) []; Call (VObject 1) [];
              Call (VNum 5) []; Call (VObject 2) []] in
  totalInvocations None sampleFn sampleFn pairDependents sampleSelector
    defaultOptions initialStore ops
  = size (list_to_set
            (omap (askedEntry None sampleFn sampleFn pairDependents defaultOptions)
               ops) : gset (list objKey * string)).
Proof.
  apply (X9_one_computation_per_entry None sampleFn sampleFn pairDependents
           sampleSelector defaultOptions 2); [reflexivity | lia |].
  repeat constructor; discriminate.
Defined.

Lemma X10_default_key_collisions_witness :
  defaultGetCacheKey ([VStr "x"] ++ VStr "a,b" :: [VNum 3])
  = defaultGetCacheKey ([VStr "x"] ++ [VStr "a"; VStr "b"] ++ [VNum 3]).
Proof.
  apply (X10_default_key_collisions [VStr "x"] (VStr "a,b") [VStr "a"; VStr "b"]
           [VNum 3]); [discriminate | reflexivity].
Defined.

Lemma X12_same_leaf_iff_same_identities_witness :
  let hA := snd (reduce (heap initialStore) 0 [VObject 1; VNull]) in
  (2 = 2 ↔ Forall2 sameIdentity [VObject 1; VNull] [VObject 1; VUndefined]) ∧
  (2 = 3 ↔ Forall2 sameIdentity [VObject 1; VNull] [VObject 1; VObject 4]) ∧
  fst (reduce hA 0 [VObject 1; VObject 4]) = inr 3.
Proof.
  split; [|split; [|reflexivity]].
  - apply (X12_same_leaf_iff_same_identities None sampleFn sampleFn
             sampleDependents sampleSelector defaultOptions []
             [VObject 1; VNull] [VObject 1; VUndefined] 2
             (snd (reduce (heap initialStore) 0 [VObject 1; VNull])) 2
             (snd (reduce (heap initialStore) 0 [VObject 1; VNull])));
      reflexivity.
  - apply (X12_same_leaf_iff_same_identities None sampleFn sampleFn
             sampleDependents sampleSelector defaultOptions []
             [VObject 1; VNull] [VObject 1; VObject 4] 2
             (snd (reduce (heap initialStore) 0 [VObject 1; VNull])) 3
             (snd (reduce (snd (reduce (heap initialStore) 0 [VObject 1; VNull])) 0
                     [VObject 1; VObject 4])));
      reflexivity.
Defined.

Lemma X14_error_causes_witness :
  Exists (λ d, validKey d = false)
    (sampleDependents (VArray 0 [VObject 1; VNum 5]) []).
Proof.
  apply (X14_error_causes None sampleFn sampleFn sampleDependents sampleSelector
           defaultOptions [] (VArray 0 [VObject 1; VNum 5]) [] InvalidDependentKey);
    reflexivity.
Defined.

Lemma X15_clearCache_restarts_witness :
  let cleared := pairRun (snd (clearCache
                   (pairRun initialStore [Call (VObject 1) []; Call (VObject 2) []])))
                   [Call (VObject 2) []] in
  let fresh := pairRun initialStore [Call (VObject 2) []] in
  ret (pairCall cleared (VObject 1) []) = ret (pairCall fresh (VObject 1) []) ∧
  invocations (pairCall cleared (VObject 1) [])
  = invocations (pairCall fresh (VObject 1) []).
Proof.
  apply (X15_clearCache_restarts None sampleFn sampleFn pairDependents
           sampleSelector defaultOptions 2); [reflexivity | lia].
Defined.

Lemma X16_failed_calls_are_harmless_witness :
  let withCall := pairRun initialStore
                    ([Call (VObject 1) []] ++ Call (VNum 5) [] :: [Call (VObject 2) []]) in
  let without := pairRun initialStore ([Call (VObject 1) []] ++ [Call (VObject 2) []]) in
  ret (pairCall withCall (VObject 1) []) = ret (pairCall without (VObject 1) []) ∧
  invocations (pairCall withCall (VObject 1) [])
  = invocations (pairCall without (VObject 1) []).
Proof.
  apply (X16_failed_calls_are_harmless None sampleFn sampleFn pairDependents
           sampleSelector defaultOptions 2 [Call (VObject 1) []] (VNum 5) []
           InvalidDependentKey); [reflexivity | lia | reflexivity].
Defined.

(** The sample computation is pure over the two-dependents function too. *)
Lemma pairSelector_pure s1 a1 s2 a2 :
  Forall2 sameIdentity (pairDependents s1 a1) (pairDependents s2 a2) →
  activeGetCacheKey defaultOptions a1 = activeGetCacheKey defaultOptions a2 →
  sampleSelector (pairDependents s1 a1) a1
  = sampleSelector (pairDependents s2 a2) a2.
Proof.
  intros _ Hkey. unfold sampleSelector.
  unfold activeGetCacheKey, defaultGetCacheKey in Hkey. simpl in Hkey.
  simpl. by rewrite Hkey.
Qed.

Lemma X17_history_independence_witness :
  let ops1 := [Call (VObject 1) []; Call (VObject 2) []] in
  let ops2 := [Call (VObject 2) []; Call (VNum 5) []; Call (VObject 1) [];
               Call (VObject 2) []] in
  ret (pairCall (pairRun initialStore ops1) (VObject 2) [])
  = ret (pairCall (pairRun initialStore ops2) (VObject 2) []) ∧
  invocations (pairCall (pairRun initialStore ops1) (VObject 2) [])
  = invocations (pairCall (pairRun initialStore ops2) (VObject 2) []).
Proof.
  apply (X17_history_independence None sampleFn sampleFn pairDependents
           sampleSelector defaultOptions 2).
  - reflexivity.
  - lia.
  - apply pairSelector_pure.
  - repeat constructor; discriminate.
  - repeat constructor; discriminate.
  - vm_compute. reflexivity.
Defined.

Lemma X18_cached_selector_is_the_selector_witness :
  ret (pairCall
         (pairRun initialStore
            [Call (VObject 1) [VStr "a"; VStr "b"]; Call (VNum 5) []; ClearCache;
             Call (VObject 2) []])
         (VObject 1) [VStr "a,b"])
  = inr (sampleSelector (pairDependents (VObject 1) [VStr "a,b"]) [VStr "a,b"]).
Proof.
  apply (X18_cached_selector_is_the_selector None sampleFn sampleFn pairDependents
           sampleSelector defaultOptions 2).
  - reflexivity.
  - lia.
  - apply pairSelector_pure.
  - reflexivity.
  - reflexivity.
  - reflexivity.
  - repeat constructor.
Defined.
